(** * dox-agent: the draft / search / revise loop and its presentation layer

    A shallow embedding of
      - [dox_agent/graph/builder.py]  ([create_event_loop], [create_graph]),
      - [dox_agent/graph/nodes.py]    ([draft_node], [execute_tools_node],
                                       [revise_node]),
      - [dox_agent/tools/search.py]   ([SearchTool.execute]),
      - [dox_agent/config/settings.py] and [dox_agent/cli.py]
        ([update_settings], [parse_reference], [format_reference]).

    The language model, the search service and the graph runtime are
    external: the first two are an interface ([Services]) over an abstract
    world, the third is a small interpreter of the graph that
    [create_graph] builds. *)

From Stdlib Require Import ZArith Ascii DecimalString.
From stdpp Require Import base strings list numbers.

Open Scope string_scope.
Open Scope list_scope.

(* ================================================================== *)
(** ** Exceptions and the effect monad *)

(** The exceptions that the modelled code raises or lets through. *)
Inductive Exn : Type :=
  | ValueError (msg : string)
  | IndexError
  | AttributeError
  | SearchError (detail : string)
  | CompletionError (detail : string)
  | GraphRecursionError
  | UnknownNode (name : string).

(** What a run leaves behind besides its value: the outside world, the
    query of every search call issued (oldest first) and the name of
    every graph node entered (oldest first). *)
Record Env (World : Type) : Type := mkEnv {
  world : World;
  search_calls : list string;
  visited : list string
}.
Arguments mkEnv {World}.
Arguments world {World}.
Arguments search_calls {World}.
Arguments visited {World}.

(** State and exceptions: a raise keeps the effects made before it. *)
Definition M (World A : Type) : Type :=
  Env World -> (Exn + A) * Env World.

Definition ret {World A} (a : A) : M World A := fun e => (inr a, e).

Definition raise {World A} (x : Exn) : M World A := fun e => (inl x, e).

Definition bind {World A B} (m : M World A) (k : A -> M World B) : M World B :=
  fun e =>
    match m e with
    | (inl x, e') => (inl x, e')
    | (inr a, e') => k a e'
    end.

Notation "x <- m ;; k" := (bind m (fun x => k))
  (at level 100, m at next level, right associativity).

(** A list comprehension whose body has effects: elements are evaluated
    left to right and the first raise ends it. *)
Fixpoint for_each {World A B} (f : A -> M World B) (l : list A)
  : M World (list B) :=
  match l with
  | [] => ret []
  | a :: l' =>
      b <- f a ;;
      bs <- for_each f l' ;;
      ret (b :: bs)
  end.

(* ================================================================== *)
(** ** Messages *)

(** One hit of a search (the payload is passed through unread). *)
Record SearchHit : Type := mkHit {
  hit_url : string;
  hit_content : string
}.

Definition SearchResult : Type := list SearchHit.

(** The arguments of a tool call, shaped by [AnswerQuestion] and
    [ReviseAnswer] ([references] is present on a revision only). *)
Record Args : Type := mkArgs {
  answer : string;
  reflection_missing : string;
  reflection_superfluous : string;
  search_queries : list string;
  references : option (list string)
}.

(** An entry of [AIMessage.tool_calls]; the parser, built with
    [return_id=True], hands back [args] and [id] of each entry. *)
Record ToolCall : Type := mkCall {
  call_type : string;
  call_args : Args;
  call_id : string
}.

Record AIMsg : Type := mkAI {
  ai_content : string;
  tool_calls : list ToolCall
}.

(** A Python [dict] with string keys: keys are unique and kept in
    insertion order; assigning to a present key keeps its place. *)
Definition dict (V : Type) : Type := list (string * V).

Fixpoint dict_get {V} (k : string) (d : dict V) : option V :=
  match d with
  | [] => None
  | (k', v) :: d' => if decide (k' = k) then Some v else dict_get k d'
  end.

Fixpoint dict_set {V} (k : string) (v : V) (d : dict V) : dict V :=
  match d with
  | [] => [(k, v)]
  | (k', v') :: d' =>
      if decide (k' = k) then (k', v) :: d' else (k', v') :: dict_set k v d'
  end.

Definition dict_keys {V} (d : dict V) : list string := d.*1.

(** [ToolMessage.content] is [json.dumps] of a mapping from query to
    result; the mapping is kept, its serialisation is not modelled. *)
Inductive BaseMessage : Type :=
  | HumanMessage (content : string)
  | AIMessage (m : AIMsg)
  | ToolMessage (content : dict SearchResult) (tool_call_id : string).

Definition is_ToolMessage (m : BaseMessage) : bool :=
  match m with
  | ToolMessage _ _ => true
  | _ => false
  end.

(** What [draft_node] may be handed: Python does not check the
    annotation, the body inspects the value. *)
Inductive PyElem : Type :=
  | EStr (s : string)
  | EMsg (m : BaseMessage)
  | EOther.

Inductive PyValue : Type :=
  | VStr (s : string)
  | VList (l : list PyElem)
  | VOther.

(* ================================================================== *)
(** ** External collaborators *)

(** The completion chains and the search tool, as functions of the
    outside world. [tavily_invoke] is [self.tavily_tool.invoke],
    [first_responder_invoke] and [revisor_invoke] are the [invoke] of the
    two chains of [chains.py]; each returns a value or raises. *)
Class Services (World : Type) : Type := {
  tavily_invoke : string -> World -> (Exn + SearchResult) * World;
  first_responder_invoke : list PyElem -> World -> (Exn + AIMsg) * World;
  revisor_invoke : list BaseMessage -> World -> (Exn + AIMsg) * World
}.

(** [parser.invoke]: the tool calls of an AI message, none for any other
    message. *)
Definition parser_invoke (m : BaseMessage) : list ToolCall :=
  match m with
  | AIMessage a => tool_calls a
  | _ => []
  end.

(* ================================================================== *)
(** ** builder.py: the transition after [revise] *)

Definition END : string := "__end__".

Definition count_tool_visits (state : list BaseMessage) : Z :=
  Z.of_nat (length (filter (fun m => is_ToolMessage m = true) state)).

(** [create_event_loop max_iterations] returns this closure. *)
Definition event_loop (max_iterations : Z) (state : list BaseMessage)
  : string :=
  if (count_tool_visits state >? max_iterations)%Z then END
  else "execute_tools".

Definition create_event_loop (max_iterations : Z)
  : list BaseMessage -> string :=
  event_loop max_iterations.

(* ================================================================== *)
(** ** nodes.py *)

Section Nodes.
Context {World : Type} {services : Services World}.

(** [SearchTool.execute]: no handler around the call. The call is
    entered in [search_calls] when it is issued. *)
Definition execute (query : string) : M World SearchResult :=
  fun e =>
    let '(r, w) := tavily_invoke query (world e) in
    (r, mkEnv w (search_calls e ++ [query]) (visited e)).

Definition call_first_responder (messages : list PyElem) : M World AIMsg :=
  fun e =>
    let '(r, w) := first_responder_invoke messages (world e) in
    (r, mkEnv w (search_calls e) (visited e)).

Definition call_revisor (messages : list BaseMessage) : M World AIMsg :=
  fun e =>
    let '(r, w) := revisor_invoke messages (world e) in
    (r, mkEnv w (search_calls e) (visited e)).

(** The [if]/[elif]/[else] of [draft_node] that computes [messages].
    The second message ends, in the source, with the name of the type
    received. *)
Definition normalize_state (state : PyValue) : Exn + list PyElem :=
  match state with
  | VStr s => inr [EMsg (HumanMessage s)]
  | VList l =>
      match list.last l with
      | None => inl (ValueError "Empty state received")
      | Some (EStr s) => inr [EMsg (HumanMessage s)]
      | Some _ => inr l
      end
  | VOther => inl (ValueError "Unexpected state type")
  end.

Definition draft_node (state : PyValue) : M World (list BaseMessage) :=
  match normalize_state state with
  | inl x => raise x
  | inr messages =>
      a <- call_first_responder messages ;;
      ret [AIMessage a]
  end.

(** The nested loops that fill [ids] and [tool_invocations]: one entry
    of each per query, in order. A [ToolInvocation] is kept as its
    [tool_input]. *)
Definition collect_invocations (parsed_tool_calls : list ToolCall)
  : list (string * string) :=
  parsed_call ← parsed_tool_calls;
  query ← search_queries (call_args parsed_call);
  [(call_id parsed_call, query)].

(** [outputs_map[id_][tool_input] = output] on a
    [defaultdict(dict)]. *)
Definition outputs_map_store (id_ tool_input : string)
    (output : SearchResult) (outputs_map : dict (dict SearchResult))
  : dict (dict SearchResult) :=
  dict_set id_
    (dict_set tool_input output (default [] (dict_get id_ outputs_map)))
    outputs_map.

(** The loop over [zip(ids, outputs, tool_invocations)]; [zip] stops
    at the shorter list. *)
Fixpoint group_outputs (invs : list (string * string))
    (outputs : list SearchResult) (outputs_map : dict (dict SearchResult))
  : dict (dict SearchResult) :=
  match invs, outputs with
  | (id_, tool_input) :: invs', output :: outputs' =>
      group_outputs invs' outputs'
        (outputs_map_store id_ tool_input output outputs_map)
  | _, _ => outputs_map
  end.

Definition tool_messages (outputs_map : dict (dict SearchResult))
  : list BaseMessage :=
  map (fun '(id_, query_outputs) => ToolMessage query_outputs id_)
      outputs_map.

Definition execute_tools_node (state : list BaseMessage)
  : M World (list BaseMessage) :=
  match list.last state with
  | None => raise IndexError
  | Some tool_invocation =>
      let parsed_tool_calls := parser_invoke tool_invocation in
      let invs := collect_invocations parsed_tool_calls in
      outputs <- for_each execute invs.*2 ;;
      ret (tool_messages (group_outputs invs outputs []))
  end.

Definition revise_node (state : list BaseMessage)
  : M World (list BaseMessage) :=
  a <- call_revisor state ;;
  ret [AIMessage a].

End Nodes.

(* ================================================================== *)
(** ** builder.py: the graph and the runtime that executes it *)

Section Graph.
Context {World : Type} {services : Services World}.

Definition Node : Type := list BaseMessage -> M World (list BaseMessage).

(** What the builder calls of [create_graph] record. *)
Record MessageGraph : Type := mkGraph {
  nodes : list (string * Node);
  edges : list (string * string);
  branches : list (string * (list BaseMessage -> string));
  entry_point : option string
}.

Definition new_graph : MessageGraph := mkGraph [] [] [] None.

Definition add_node (name : string) (action : Node) (g : MessageGraph)
  : MessageGraph :=
  mkGraph (nodes g ++ [(name, action)]) (edges g) (branches g)
          (entry_point g).

Definition add_edge (start_key end_key : string) (g : MessageGraph)
  : MessageGraph :=
  mkGraph (nodes g) (edges g ++ [(start_key, end_key)]) (branches g)
          (entry_point g).

Definition add_conditional_edges (source : string)
    (path : list BaseMessage -> string) (g : MessageGraph)
  : MessageGraph :=
  mkGraph (nodes g) (edges g) (branches g ++ [(source, path)])
          (entry_point g).

Definition set_entry_point (key : string) (g : MessageGraph)
  : MessageGraph :=
  mkGraph (nodes g) (edges g) (branches g) (Some key).

(** [create_graph], call by call. The graph hands a node its state,
    which is a list of messages. *)
Definition create_graph (max_iterations : Z) : MessageGraph :=
  let builder := new_graph in
  let builder :=
    add_node "draft" (fun state => draft_node (VList (EMsg <$> state)))
             builder in
  let builder := add_node "execute_tools" execute_tools_node builder in
  let builder := add_node "revise" revise_node builder in
  let builder := add_edge "draft" "execute_tools" builder in
  let builder := add_edge "execute_tools" "revise" builder in
  let builder :=
    add_conditional_edges "revise" (create_event_loop max_iterations)
                          builder in
  let builder := set_entry_point "draft" builder in
  builder.

(** The edges leaving a node. *)
Definition successors (g : MessageGraph) (name : string) : list string :=
  (filter (fun e => e.1 = name) (edges g)).*2.

(** Where control goes after [name]: the node's conditional edge
    decides on the new state when it has one, else its plain edge. *)
Definition next_node (g : MessageGraph) (name : string)
    (state : list BaseMessage) : option string :=
  match dict_get name (branches g) with
  | Some path => Some (path state)
  | None => head (successors g name)
  end.

Definition enter (name : string) : M World unit :=
  fun e => (inr tt, mkEnv (world e) (search_calls e) (visited e ++ [name])).

(** The runtime of a message graph: run the node, append what it
    returns to the state, then follow the edge. [recursion_limit] bounds
    the steps: the runtime compares its step counter with the limit
    after the output of a node is applied and before it looks for the
    next node, so a run that has used up the limit raises even where
    the edge leads to [END]. An exception of a node ends the run. *)
Fixpoint run (g : MessageGraph) (recursion_limit : nat) (name : string)
    (state : list BaseMessage) : M World (list BaseMessage) :=
  match recursion_limit with
  | O => raise GraphRecursionError
  | S limit =>
      match dict_get name (nodes g) with
      | None => raise (UnknownNode name)
      | Some action =>
          _ <- enter name ;;
          out <- action state ;;
          let state' := state ++ out in
          match limit with
          | O => raise GraphRecursionError
          | S _ =>
              match next_node g name state' with
              | None => ret state'
              | Some next =>
                  if decide (next = END) then ret state'
                  else run g limit next state'
              end
          end
      end
  end.

(** [graph.invoke(question)]. *)
Definition invoke (g : MessageGraph) (recursion_limit : nat)
    (question : string) : M World (list BaseMessage) :=
  match entry_point g with
  | None => raise (ValueError "Graph must have an entrypoint")
  | Some key => run g recursion_limit key [HumanMessage question]
  end.

End Graph.

(** A fresh environment around a world. *)
Definition start {World} (w : World) : Env World := mkEnv w [] [].

(** How many times a node was entered. *)
Definition times_entered {World} (name : string) (e : Env World) : nat :=
  length (filter (fun n => n = name) (visited e)).

(* ================================================================== *)
(** ** config/settings.py and cli.py: settings *)

Record Settings : Type := mkSettings {
  OPENAI_API_KEY : string;
  TAVILY_API_KEY : string;
  LANGCHAIN_API_KEY : option string;
  LANGCHAIN_TRACING_V2 : option bool;
  LANGCHAIN_PROJECT : option string;
  MAX_ITERATIONS : Z;
  MODEL_NAME : string;
  MAX_RESULTS : Z
}.

Definition set_MAX_ITERATIONS (v : Z) (s : Settings) : Settings :=
  mkSettings (OPENAI_API_KEY s) (TAVILY_API_KEY s) (LANGCHAIN_API_KEY s)
    (LANGCHAIN_TRACING_V2 s) (LANGCHAIN_PROJECT s) v (MODEL_NAME s)
    (MAX_RESULTS s).

Definition set_MODEL_NAME (v : string) (s : Settings) : Settings :=
  mkSettings (OPENAI_API_KEY s) (TAVILY_API_KEY s) (LANGCHAIN_API_KEY s)
    (LANGCHAIN_TRACING_V2 s) (LANGCHAIN_PROJECT s) (MAX_ITERATIONS s) v
    (MAX_RESULTS s).

Definition set_MAX_RESULTS (v : Z) (s : Settings) : Settings :=
  mkSettings (OPENAI_API_KEY s) (TAVILY_API_KEY s) (LANGCHAIN_API_KEY s)
    (LANGCHAIN_TRACING_V2 s) (LANGCHAIN_PROJECT s) (MAX_ITERATIONS s)
    (MODEL_NAME s) v.

(** [update_settings] mutates the module-level [settings]; here the
    object goes in and comes out. *)
Definition update_settings (max_iterations : option Z) (model : option string)
    (max_results : option Z) (settings : Settings) : Settings :=
  let settings :=
    match max_iterations with
    | Some v => set_MAX_ITERATIONS v settings
    | None => settings
    end in
  let settings :=
    match model with
    | Some v => set_MODEL_NAME v settings
    | None => settings
    end in
  let settings :=
    match max_results with
    | Some v => set_MAX_RESULTS v settings
    | None => settings
    end in
  settings.

(* ================================================================== *)
(** ** cli.py: references *)

(** The values a parsed reference is made of: a string, an integer, or
    any other literal (a float, [None], a container inside a container),
    which is never equal to a string and is kept as the text that [str]
    gives for it. A literal that opens with a brace evaluates to a dict,
    to a set, or, when a comma follows the closing brace, to a tuple. *)
Inductive PyAtom : Type :=
  | AStr (s : string)
  | AInt (z : Z)
  | AOther (text : string).

Inductive PyObj : Type :=
  | PyDict (items : list (PyAtom * PyAtom))
  | PySet (elems : list PyAtom)
  | PyTuple (elems : list PyAtom).

Global Instance PyAtom_eq_dec : EqDecision PyAtom.
Proof. solve_decision. Defined.

(** [str(v)], as an f-string applies it. *)
Definition py_str (v : PyAtom) : string :=
  match v with
  | AStr s => s
  | AInt z => NilZero.string_of_int (Z.to_int z)
  | AOther text => text
  end.

(** [key in obj]: a key of a dict, an element of a set or tuple. *)
Definition py_contains (key : PyAtom) (obj : PyObj) : bool :=
  match obj with
  | PyDict items => bool_decide (key ∈ items.*1)
  | PySet elems => bool_decide (key ∈ elems)
  | PyTuple elems => bool_decide (key ∈ elems)
  end.

Fixpoint assoc (key : PyAtom) (items : list (PyAtom * PyAtom))
  : option PyAtom :=
  match items with
  | [] => None
  | (k, v) :: items' => if decide (k = key) then Some v else assoc key items'
  end.

(** [obj.get(key, default)]: a set has no [get], nor has a tuple. *)
Definition py_get (obj : PyObj) (key fallback : PyAtom) : Exn + PyAtom :=
  match obj with
  | PyDict items => inr (default fallback (assoc key items))
  | PySet _ => inl AttributeError
  | PyTuple _ => inl AttributeError
  end.

(** [str.strip()] and [str.startswith], on the ASCII white space. *)
Definition is_space (c : ascii) : bool :=
  let n := nat_of_ascii c in
  (Nat.leb 9 n && Nat.leb n 13) || (Nat.leb 28 n && Nat.leb n 32).

Fixpoint lstrip (s : string) : string :=
  match s with
  | String c s' => if is_space c then lstrip s' else s
  | EmptyString => EmptyString
  end.

Fixpoint rstrip (s : string) : string :=
  match s with
  | String c s' =>
      match rstrip s' with
      | EmptyString => if is_space c then EmptyString else String c EmptyString
      | r => String c r
      end
  | EmptyString => EmptyString
  end.

Definition strip (s : string) : string := rstrip (lstrip s).

Definition startswith (s p : string) : bool := String.prefix p s.

(** A reference as [format_reference] receives it. *)
Inductive Ref : Type :=
  | RefStr (s : string)
  | RefObj (o : PyObj).

Section References.
(** [ast.literal_eval], [None] when it raises, and [str] of a dict or
    set: both belong to Python, not to this program. *)
Variable literal_eval : string -> option PyObj.
Variable obj_str : PyObj -> string.

Definition text_only (ref : string) : PyObj :=
  PyDict [(AStr "text", AStr ref)].

(** The bare [except] turns every raise of the evaluation into the
    [text] record. *)
Definition parse_reference (ref : string) : PyObj :=
  if startswith (strip ref) "{" then
    match literal_eval ref with
    | Some o => o
    | None => text_only ref
    end
  else text_only ref.

Definition ref_str (ref : Ref) : string :=
  match ref with
  | RefStr s => s
  | RefObj o => obj_str o
  end.

Definition format_reference (ref : Ref) (index : Z) : Exn + string :=
  let ref_dict :=
    match ref with
    | RefStr s => parse_reference s
    | RefObj o => o
    end in
  let idx := NilZero.string_of_int (Z.to_int index) in
  if py_contains (AStr "Author") ref_dict then
    match py_get ref_dict (AStr "Author") (AStr "No Author"),
          py_get ref_dict (AStr "Title") (AStr "No Title"),
          py_get ref_dict (AStr "URL") (AStr "No URL"),
          py_get ref_dict (AStr "Date") (AStr "N/A") with
    | inr author, inr title, inr url, inr date =>
        inr ("[" +:+ idx +:+ "] " +:+ py_str author +:+ " - " +:+
             py_str title +:+ " - " +:+ py_str url +:+
             " (" +:+ py_str date +:+ ")")
    | inl x, _, _, _ => inl x
    | _, inl x, _, _ => inl x
    | _, _, inl x, _ => inl x
    | _, _, _, inl x => inl x
    end
  else
    match py_get ref_dict (AStr "text") (AStr (ref_str ref)) with
    | inr text => inr ("[" +:+ idx +:+ "] " +:+ py_str text)
    | inl x => inl x
    end.

End References.

(** *** A fragment of Python's literals

    Brace displays whose entries are integers without sign or quoted
    strings without escapes, separated by single spaces at most. On a
    string outside the fragment the evaluator answers [None], which says
    nothing about Python there; it is evaluated below on strings of the
    fragment only. *)
Inductive Token : Type :=
  | TLBrace | TRBrace | TColon | TComma
  | TAtom (a : PyAtom).

Inductive LexMode : Type :=
  | Idle
  | InStr (quote : ascii) (acc : string)
  | InInt (n : Z) (zero : bool).

Definition double_quote : ascii := ascii_of_nat 34.

Definition digit_of (c : ascii) : option Z :=
  let n := nat_of_ascii c in
  if Nat.leb 48 n && Nat.leb n 57 then Some (Z.of_nat (n - 48)) else None.

Definition lex_idle (c : ascii) (toks : list Token)
  : option (LexMode * list Token) :=
  if decide (c = "{"%char) then Some (Idle, TLBrace :: toks)
  else if decide (c = "}"%char) then Some (Idle, TRBrace :: toks)
  else if decide (c = ":"%char) then Some (Idle, TColon :: toks)
  else if decide (c = ","%char) then Some (Idle, TComma :: toks)
  else if decide (c = " "%char) then Some (Idle, toks)
  else if decide (c = "'"%char) then Some (InStr c EmptyString, toks)
  else if decide (c = double_quote) then Some (InStr c EmptyString, toks)
  else match digit_of c with
       | Some d => Some (InInt d (bool_decide (d = 0%Z)), toks)
       | None => None
       end.

Definition lex_step (st : LexMode * list Token) (c : ascii)
  : option (LexMode * list Token) :=
  match st with
  | (Idle, toks) => lex_idle c toks
  | (InStr q acc, toks) =>
      if decide (c = q) then Some (Idle, TAtom (AStr acc) :: toks)
      else if decide (c = "\"%char) then None
      else if Nat.ltb (nat_of_ascii c) 32 then None
      else Some (InStr q (acc +:+ String c EmptyString), toks)
  | (InInt n zero, toks) =>
      match digit_of c with
      | Some d => if zero then None else Some (InInt (10 * n + d)%Z false, toks)
      | None => lex_idle c (TAtom (AInt n) :: toks)
      end
  end.

Fixpoint lex_from (st : LexMode * list Token) (s : string)
  : option (list Token) :=
  match s with
  | String c s' =>
      match lex_step st c with
      | Some st' => lex_from st' s'
      | None => None
      end
  | EmptyString =>
      match st with
      | (Idle, toks) => Some (rev toks)
      | (InInt n _, toks) => Some (rev (TAtom (AInt n) :: toks))
      | (InStr _ _, _) => None
      end
  end.

Fixpoint dict_items (toks : list Token) : option (list (PyAtom * PyAtom)) :=
  match toks with
  | TAtom k :: TColon :: TAtom v :: rest =>
      match rest with
      | [TRBrace] => Some [(k, v)]
      | [TComma; TRBrace] => Some [(k, v)]
      | TComma :: rest' =>
          match dict_items rest' with
          | Some items => Some ((k, v) :: items)
          | None => None
          end
      | _ => None
      end
  | _ => None
  end.

Fixpoint set_items (toks : list Token) : option (list PyAtom) :=
  match toks with
  | TAtom a :: rest =>
      match rest with
      | [TRBrace] => Some [a]
      | [TComma; TRBrace] => Some [a]
      | TComma :: rest' =>
          match set_items rest' with
          | Some elems => Some (a :: elems)
          | None => None
          end
      | _ => None
      end
  | _ => None
  end.

(** A dict display keeps the last value given for a key, at the place
    of the key's first entry. *)
Fixpoint store (k v : PyAtom) (items : list (PyAtom * PyAtom))
  : list (PyAtom * PyAtom) :=
  match items with
  | [] => [(k, v)]
  | (k', v') :: items' =>
      if decide (k' = k) then (k', v) :: items'
      else (k', v') :: store k v items'
  end.

Definition build_dict (items : list (PyAtom * PyAtom))
  : list (PyAtom * PyAtom) :=
  foldl (fun d kv => store kv.1 kv.2 d) [] items.

Definition literal_eval_flat (s : string) : option PyObj :=
  match lex_from (Idle, []) s with
  | Some [TLBrace; TRBrace] => Some (PyDict [])
  | Some (TLBrace :: ((TAtom _ :: TColon :: _) as body)) =>
      match dict_items body with
      | Some items => Some (PyDict (build_dict items))
      | None => None
      end
  | Some (TLBrace :: body) =>
      match set_items body with
      | Some elems => Some (PySet (remove_dups elems))
      | None => None
      end
  | _ => None
  end.


(* ================================================================== *)
(** ** cli.py: environment, output and [main] *)

(** [validate_environment] reads the module-level [settings]; [not s]
    on a string holds for the empty string. *)
Definition validate_environment (settings : Settings) : Exn + unit :=
  if decide (OPENAI_API_KEY settings = EmptyString) then
    inl (ValueError "OPENAI_API_KEY not found in environment variables")
  else if decide (TAVILY_API_KEY settings = EmptyString) then
    inl (ValueError "TAVILY_API_KEY not found in environment variables")
  else inr tt.

Definition newline : string := String (ascii_of_nat 10) EmptyString.

(** [sep.join(l)]. *)
Fixpoint join (sep : string) (l : list string) : string :=
  match l with
  | [] => EmptyString
  | [s] => s
  | s :: l' => s +:+ sep +:+ join sep l'
  end.

Section Output.
(** Python's part: [ast.literal_eval], [str] of a dict or set, and [str]
    of a list of strings. *)
Variable literal_eval : string -> option PyObj.
Variable obj_str : PyObj -> string.
Variable list_str : list string -> string.

(** [for i, ref in enumerate(references, start): ...append(
    format_reference(ref, i))]: the first reference that does not
    render ends the loop with its exception. *)
Fixpoint format_references (references : list string) (start : Z)
  : Exn + list string :=
  match references with
  | [] => inr []
  | ref :: references' =>
      match format_reference literal_eval obj_str (RefStr ref) start with
      | inl x => inl x
      | inr line =>
          match format_references references' (start + 1)%Z with
          | inl x => inl x
          | inr lines => inr (line :: lines)
          end
      end
  end.

(** [format_standard_output]: only an AI message has [tool_calls];
    [tool_calls[0]] needs a first entry; [references] is looked up with
    the default [[]]. *)
Definition format_standard_output (message : BaseMessage)
  : Exn + (string * list string) :=
  match message with
  | AIMessage m =>
      match tool_calls m with
      | [] => inl IndexError
      | tool_call :: _ =>
          let args := call_args tool_call in
          match format_references (default [] (references args)) 1 with
          | inl x => inl x
          | inr formatted_refs => inr (answer args, formatted_refs)
          end
      end
  | _ => inl AttributeError
  end.

(** The lines that the body of the loop of [format_verbose_output]
    appends for one tool call. *)
Definition verbose_lines (tool_call : ToolCall) : Exn + list string :=
  let args := call_args tool_call in
  let head :=
    [newline +:+ "Answer: " +:+ answer args;
     newline +:+ "Reflection:";
     "Missing: " +:+ reflection_missing args;
     "Superfluous: " +:+ reflection_superfluous args;
     newline +:+ "Search Queries: " +:+ list_str (search_queries args)] in
  match references args with
  | None => inr head
  | Some refs =>
      match format_references refs 1 with
      | inl x => inl x
      | inr lines => inr (head ++ (newline +:+ "References:") :: lines)
      end
  end.

Fixpoint verbose_output (calls : list ToolCall) : Exn + list string :=
  match calls with
  | [] => inr []
  | tool_call :: calls' =>
      match verbose_lines tool_call with
      | inl x => inl x
      | inr lines =>
          match verbose_output calls' with
          | inl x => inl x
          | inr rest => inr (lines ++ rest)
          end
      end
  end.

(** [format_verbose_output]: [hasattr(message, "tool_calls")] holds for
    an AI message. *)
Definition format_verbose_output (message : BaseMessage) : Exn + string :=
  match message with
  | AIMessage m =>
      match verbose_output (tool_calls m) with
      | inl x => inl x
      | inr output => inr (join newline output)
      end
  | _ => inr (join newline [])
  end.

End Output.

(** What a process leaves on its terminal and in files: the arguments of
    [print], oldest first, and the [(filename, output)] of every
    [json.dump]. *)
Record Terminal : Type := mkTerminal {
  printed : list string;
  saved : list (string * Args)
}.

Definition IO (A : Type) : Type := Terminal -> (Exn + A) * Terminal.

Definition io_ret {A} (a : A) : IO A := fun t => (inr a, t).

Definition io_raise {A} (x : Exn) : IO A := fun t => (inl x, t).

Definition io_bind {A B} (m : IO A) (k : A -> IO B) : IO B :=
  fun t =>
    match m t with
    | (inl x, t') => (inl x, t')
    | (inr a, t') => k a t'
    end.

Definition io_lift {A} (r : Exn + A) : IO A :=
  match r with
  | inl x => io_raise x
  | inr a => io_ret a
  end.

Definition print (s : string) : IO unit :=
  fun t => (inr tt, mkTerminal (printed t ++ [s]) (saved t)).

Fixpoint io_for_each {A} (f : A -> IO unit) (l : list A) : IO unit :=
  match l with
  | [] => io_ret tt
  | a :: l' => io_bind (f a) (fun _ => io_for_each f l')
  end.

Section Display.
Variable literal_eval : string -> option PyObj.
Variable obj_str : PyObj -> string.
Variable list_str : list string -> string.
(** [open(filename, "w")]: the exception it raises, if any. *)
Variable open_error : string -> option Exn.

Definition save_output_to_file (output : Args) (filename : string)
  : IO unit :=
  match open_error filename with
  | Some x => io_raise x
  | None => fun t => (inr tt, mkTerminal (printed t) (saved t ++ [(filename, output)]))
  end.

(** [result[-1].tool_calls[0]["args"]]. *)
Definition final_args (result : list BaseMessage) : Exn + Args :=
  match list.last result with
  | None => inl IndexError
  | Some (AIMessage m) =>
      match tool_calls m with
      | [] => inl IndexError
      | tool_call :: _ => inr (call_args tool_call)
      end
  | Some _ => inl AttributeError
  end.

(** [if save_output:] holds for a file name that is not empty. *)
Definition wants_save (save_output : option string) : option string :=
  match save_output with
  | Some filename =>
      if decide (filename = EmptyString) then None else Some filename
  | None => None
  end.

Definition process_and_display_output (result : list BaseMessage)
    (verbose : bool) (save_output : option string) : IO unit :=
  io_bind
    (if verbose then
       io_for_each
         (fun message =>
            io_bind (print (newline +:+ "=== Message ===")) (fun _ =>
            io_bind (io_lift (format_verbose_output literal_eval obj_str
                                list_str message)) (fun text =>
            print text)))
         result
     else
       match list.last result with
       | None => io_raise IndexError
       | Some message =>
           io_bind (io_lift (format_standard_output literal_eval obj_str
                               message)) (fun '(answer, references) =>
           io_bind (print answer) (fun _ =>
           match references with
           | [] => io_ret tt
           | _ :: _ =>
               io_bind (print (newline +:+ "References:")) (fun _ =>
               io_for_each print references)
           end))
       end)
    (fun _ =>
       match wants_save save_output with
       | None => io_ret tt
       | Some filename =>
           io_bind (io_lift (final_args result)) (fun output =>
           save_output_to_file output filename)
       end).

End Display.

(** The state of a process that runs [main]: the module-level
    [settings], the default of [create_graph]'s parameter (the value of
    [settings.MAX_ITERATIONS] when [builder.py] was imported, bound once
    and for all), the environment of the graph and the terminal. *)
Record Process (World : Type) : Type := mkProcess {
  proc_settings : Settings;
  proc_bound_default : Z;
  proc_env : Env World;
  proc_terminal : Terminal
}.
Arguments mkProcess {World}.
Arguments proc_settings {World}.
Arguments proc_bound_default {World}.
Arguments proc_env {World}.
Arguments proc_terminal {World}.

(** The process once the modules are imported: the default is bound to
    the threshold of the settings as they are then. *)
Definition imported {World} (settings : Settings) (w : World)
  : Process World :=
  mkProcess settings (MAX_ITERATIONS settings) (mkEnv w [] [])
            (mkTerminal [] []).

(** [graph.invoke(question)] passes no configuration: the limit of the
    graph runtime is its default. *)
Definition default_recursion_limit : nat := 25.

Section Main.
Context {World : Type} {services : Services World}.
Variable literal_eval : string -> option PyObj.
Variable obj_str : PyObj -> string.
Variable list_str : list string -> string.
Variable open_error : string -> option Exn.

(** [main]. The chains and the search tool are built when their modules
    are imported, and the default of [create_graph]'s parameter is
    evaluated when [builder.py] is imported: [create_graph()] runs with
    that bound value, whatever the settings say when [main] is called
    and whatever [update_settings] makes of them. [load_dotenv] comes
    after the settings object exists and [word_limit] is not used. *)
Definition main (question : string) (max_iterations : option Z)
    (model : option string) (max_results : option Z) (word_limit : Z)
    (verbose : bool) (save_output : option string) (p : Process World)
  : (Exn + unit) * Process World :=
  let bound_default := proc_bound_default p in
  match validate_environment (proc_settings p) with
  | inl x => (inl x, p)
  | inr _ =>
      let settings :=
        update_settings max_iterations model max_results (proc_settings p) in
      let graph := create_graph bound_default in
      match invoke graph default_recursion_limit question (proc_env p) with
      | (inl x, e) =>
          (inl x, mkProcess settings bound_default e (proc_terminal p))
      | (inr result, e) =>
          let '(r, t) :=
            process_and_display_output literal_eval obj_str list_str
              open_error result verbose save_output (proc_terminal p) in
          (r, mkProcess settings bound_default e t)
      end
  end.

End Main.

(* ================================================================== *)
(** ** Sample collaborators

    A world that counts the calls made to it. The search answers a query
    with one hit that records the query and the count; both chains
    answer with one proposal whose identifier records the count. The
    second set of collaborators differs in the search, which raises on
    the query [unreachable]. *)
Definition sample_hit (query : string) (w : nat) : SearchHit :=
  mkHit query (NilZero.string_of_int (Z.to_int (Z.of_nat w))).

Definition sample_proposal (type : string) (refs : option (list string))
    (w : nat) : AIMsg :=
  mkAI EmptyString
    [mkCall type
       (mkArgs "text" "gaps" "padding" ["first query"; "second query"] refs)
       ("call_" +:+ NilZero.string_of_int (Z.to_int (Z.of_nat w)))].

Definition sample_services : Services nat := {|
  tavily_invoke query w := (inr [sample_hit query w], S w);
  first_responder_invoke _ w :=
    (inr (sample_proposal "AnswerQuestion" None w), S w);
  revisor_invoke _ w :=
    (inr (sample_proposal "ReviseAnswer" (Some ["a source"]) w), S w)
|}.

Definition failing_services : Services nat := {|
  tavily_invoke query w :=
    if decide (query = "unreachable")
    then (inl (SearchError "connection refused"), S w)
    else (inr [sample_hit query w], S w);
  first_responder_invoke _ w :=
    (inr (sample_proposal "AnswerQuestion" None w), S w);
  revisor_invoke _ w :=
    (inr (sample_proposal "ReviseAnswer" (Some ["a source"]) w), S w)
|}.

(** A proposal, and a history that ends with a message carrying the
    given proposals. *)
Definition proposal (id_ : string) (queries : list string) : ToolCall :=
  mkCall "AnswerQuestion" (mkArgs "text" "gaps" "padding" queries None) id_.

Definition history_with (calls : list ToolCall) : list BaseMessage :=
  [HumanMessage "question"; AIMessage (mkAI EmptyString calls)].

(** The elements of a list at their first occurrence, in order. *)
Fixpoint first_occurrences (l : list string) : list string :=
  match l with
  | [] => []
  | x :: l' => x :: filter (fun y => y ≠ x) (first_occurrences l')
  end.

(** The identifier that a tool-result turn carries. *)
Definition turn_id (m : BaseMessage) : string :=
  match m with
  | ToolMessage _ id_ => id_
  | _ => EmptyString
  end.

(** Chains that answer with proposals that carry no query. *)
Definition no_query (a : AIMsg) : Prop :=
  collect_invocations (tool_calls a) = [].

Section Idle.
Context {World : Type} {services : Services World}.

Definition chains_ask_nothing : Prop :=
  (∀ (messages : list PyElem) (w : World),
     ∃ a, (first_responder_invoke messages w).1 = inr a ∧ no_query a) ∧
  (∀ (messages : list BaseMessage) (w : World),
     ∃ a, (revisor_invoke messages w).1 = inr a ∧ no_query a).

End Idle.

(** Collaborators whose proposals carry no query. *)
Definition idle_proposal (w : nat) : AIMsg :=
  mkAI EmptyString
    [mkCall "ReviseAnswer" (mkArgs "text" "gaps" "padding" [] (Some []))
       ("call_" +:+ NilZero.string_of_int (Z.to_int (Z.of_nat w)))].

Definition idle_services : Services nat := {|
  tavily_invoke query w := (inr [sample_hit query w], S w);
  first_responder_invoke _ w := (inr (idle_proposal w), S w);
  revisor_invoke _ w := (inr (idle_proposal w), S w)
|}.

(** Collaborators whose first completion fails. *)
Definition silent_services : Services nat := {|
  tavily_invoke query w := (inr [sample_hit query w], S w);
  first_responder_invoke _ w := (inl (CompletionError "timeout"), S w);
  revisor_invoke _ w := (inl (CompletionError "timeout"), S w)
|}.




(** A history in which every pass has added one tool-result turn:
    after the question, proposals and tool-result turns alternate, from
    the draft to the last revision. *)
Fixpoint alternates (history : list BaseMessage) : bool :=
  match history with
  | [AIMessage _] => true
  | AIMessage _ :: ToolMessage _ _ :: history' => alternates history'
  | _ => false
  end.

Definition one_turn_per_pass (question : string)
    (history : list BaseMessage) : Prop :=
  ∃ turns, history = HumanMessage question :: turns ∧
           alternates turns = true.

(** The settings as the class [Settings] builds them from two keys
    when the environment sets nothing else. *)
Definition default_settings (openai_api_key tavily_api_key : string)
  : Settings :=
  mkSettings openai_api_key tavily_api_key None None None 3
             "gpt-4-turbo-preview" 5.

(** Stand-ins for Python's [str] of containers and for a file system
    in which every file can be opened. *)
Definition sample_obj_str (o : PyObj) : string := "{...}".

Definition sample_list_str (l : list string) : string :=
  "[" +:+ join ", " l +:+ "]".

Definition sample_open_error (filename : string) : option Exn := None.

(** The override that wins when [update_settings] is applied twice:
    the later one where it is given. *)
Definition later_or {A} (later earlier : option A) : option A :=
  match later with
  | Some _ => later
  | None => earlier
  end.

(** Two final messages: one whose references render, one with a
    reference that evaluates to a set. *)
Definition sample_final : BaseMessage :=
  AIMessage
    (mkAI EmptyString
       [mkCall "ReviseAnswer"
          (mkArgs "the answer" "gaps" "padding" ["next query"]
             (Some ["first source";
                    "{'Author': 'A', 'Title': 'T', 'URL': 'u', 'Date': 'd'}"]))
          "call_9"]).

Definition sample_broken : BaseMessage :=
  AIMessage
    (mkAI EmptyString
       [mkCall "ReviseAnswer"
          (mkArgs "the answer" "gaps" "padding" ["next query"]
             (Some ["first source"; "{1}"]))
          "call_9"]).


(* ================================================================== *)
(** ** Vocabulary of the properties *)

(** The two kinds of input that the entry step refuses. *)
Definition is_empty_sequence (state : PyValue) : bool :=
  match state with
  | VList [] => true
  | _ => false
  end.

Definition is_unrecognized (state : PyValue) : bool :=
  match state with
  | VOther => true
  | _ => false
  end.

(** Collaborators that do their part: a search service that always
    answers, and completion chains that always answer with one proposal
    carrying at least one query. *)
Definition one_proposal (a : AIMsg) : Prop :=
  ∃ call, tool_calls a = [call] ∧ search_queries (call_args call) ≠ [].

Section Assumptions.
Context {World : Type} {services : Services World}.

Definition search_answers : Prop :=
  ∀ (query : string) (w : World), ∃ r, (tavily_invoke query w).1 = inr r.

Definition chains_answer : Prop :=
  (∀ (messages : list PyElem) (w : World),
     ∃ a, (first_responder_invoke messages w).1 = inr a ∧ one_proposal a) ∧
  (∀ (messages : list BaseMessage) (w : World),
     ∃ a, (revisor_invoke messages w).1 = inr a ∧ one_proposal a).

End Assumptions.

(* ================================================================== *)
(** * Properties *)

(** ** The transition function *)

Lemma event_loop_cases (max_iterations : Z) (state : list BaseMessage) :
  event_loop max_iterations state = END ∨
  event_loop max_iterations state = "execute_tools".
Proof. unfold event_loop. destruct (_ >? _)%Z; auto. Qed.

Lemma event_loop_threshold_END (max_iterations : Z)
    (state : list BaseMessage) :
  event_loop max_iterations state = END →
  (count_tool_visits state > max_iterations)%Z.
Proof.
  unfold event_loop.
  destruct (Z.gtb_spec (count_tool_visits state) max_iterations);
    [lia | done].
Qed.

Lemma event_loop_threshold_go (max_iterations : Z)
    (state : list BaseMessage) :
  event_loop max_iterations state = "execute_tools" →
  (count_tool_visits state <= max_iterations)%Z.
Proof.
  unfold event_loop.
  destruct (Z.gtb_spec (count_tool_visits state) max_iterations);
    [done | lia].
Qed.

(** C1. After REVISE the transition function answers TERMINATE exactly
    when the number of tool-result turns of the history is strictly
    greater than [max_iterations], and EXECUTE_TOOLS exactly when it is
    not; a count equal to [max_iterations] continues. *)
Theorem event_loop_threshold (max_iterations : Z) (state : list BaseMessage) :
  (event_loop max_iterations state = END
     ↔ (count_tool_visits state > max_iterations)%Z) ∧
  (event_loop max_iterations state = "execute_tools"
     ↔ (count_tool_visits state <= max_iterations)%Z) ∧
  (event_loop (count_tool_visits state) state = "execute_tools").
Proof.
  unfold event_loop. split_and!.
  - destruct (Z.gtb_spec (count_tool_visits state) max_iterations);
      split; intros; try done; try lia.
  - destruct (Z.gtb_spec (count_tool_visits state) max_iterations);
      split; intros; try done; try lia.
  - destruct (Z.gtb_spec (count_tool_visits state) (count_tool_visits state));
      [lia | done].
Qed.

(** ** Settings *)

(** C7. [update_settings] gives each of the three fields the value of
    its argument when the argument is not [None], keeps it otherwise,
    and keeps the five remaining fields, the two credentials among
    them. *)
Theorem update_settings_frame (max_iterations : option Z)
    (model : option string) (max_results : option Z) (s : Settings) :
  let s' := update_settings max_iterations model max_results s in
  MAX_ITERATIONS s' = default (MAX_ITERATIONS s) max_iterations ∧
  MODEL_NAME s' = default (MODEL_NAME s) model ∧
  MAX_RESULTS s' = default (MAX_RESULTS s) max_results ∧
  OPENAI_API_KEY s' = OPENAI_API_KEY s ∧
  TAVILY_API_KEY s' = TAVILY_API_KEY s ∧
  LANGCHAIN_API_KEY s' = LANGCHAIN_API_KEY s ∧
  LANGCHAIN_TRACING_V2 s' = LANGCHAIN_TRACING_V2 s ∧
  LANGCHAIN_PROJECT s' = LANGCHAIN_PROJECT s.
Proof.
  destruct max_iterations, model, max_results; cbn; split_and!; reflexivity.
Qed.

(** ** The entry step *)

Lemma last_cons_is_Some {A} (x : A) (l : list A) : is_Some (list.last (x :: l)).
Proof.
  revert x. induction l as [|y l IH]; intros x; [by eexists|].
  change (list.last (x :: y :: l)) with (list.last (y :: l)). apply IH.
Qed.

Section Entry.
Context {World : Type} {services : Services World}.

(** C5. On an empty list, and on a value that is neither a string nor
    a list, [draft_node] raises [ValueError] at once: the completion
    chain is not called and the environment is as before. On every
    other value the normalisation yields the messages, and the step is
    the completion call on them. *)
Theorem draft_node_invalid_state (state : PyValue) (e : Env World) :
  if is_empty_sequence state || is_unrecognized state
  then ∃ msg, normalize_state state = inl (ValueError msg) ∧
              draft_node state e = (inl (ValueError msg), e)
  else ∃ messages, normalize_state state = inr messages ∧
                   messages ≠ [] ∧
                   draft_node state e =
                     (a <- call_first_responder messages ;;
                      ret [AIMessage a]) e.
Proof.
  destruct state as [s | [|x l] | ]; cbn -[list.last].
  - eexists; split_and!; done.
  - eexists; split; reflexivity.
  - unfold draft_node; cbn -[list.last].
    destruct (last_cons_is_Some x l) as [y ->].
    destruct y; eexists; split_and!; done.
  - eexists; split; reflexivity.
Qed.

End Entry.

(** ** References *)

Lemma parse_reference_fallback (ev : string → option PyObj) (ref : string) :
  startswith (strip ref) "{" = false ∨ ev ref = None →
  parse_reference ev ref = text_only ref.
Proof.
  unfold parse_reference. intros [-> | ->]; [done|].
  by destruct (startswith _ _).
Qed.

(** A reference whose evaluation is refused, or that does not open with
    a brace, is rendered as it stands. *)
Lemma format_reference_opaque (ev : string → option PyObj)
    (obj_str : PyObj → string) (ref : string) (index : Z) :
  startswith (strip ref) "{" = false ∨ ev ref = None →
  format_reference ev obj_str (RefStr ref) index =
    inr ("[" +:+ NilZero.string_of_int (Z.to_int index) +:+ "] " +:+ ref).
Proof.
  intros Hfail. unfold format_reference.
  rewrite (parse_reference_fallback _ _ Hfail). reflexivity.
Qed.


Example format_reference_structured (obj_str : PyObj → string) :
  format_reference literal_eval_flat obj_str
    (RefStr "{'Author': 'A', 'Title': 'T', 'URL': 'u', 'Date': 'd'}") 1
  = inr "[1] A - T - u (d)".
Proof. reflexivity. Qed.

Example format_reference_plain (ev : string → option PyObj)
    (obj_str : PyObj → string) :
  format_reference ev obj_str (RefStr "some note") 1 = inr "[1] some note".
Proof. apply format_reference_opaque. by left. Qed.

(** C6. [format_reference] does raise on a reference string: the text
    [{1}] opens with a brace and evaluates to a set, which is handed on
    as if it were a dict, and the [get] on it raises [AttributeError];
    nothing between [format_reference] and its callers handles it. *)
Theorem format_reference_raises_on_set (obj_str : PyObj → string) :
  startswith (strip "{1}") "{" = true ∧
  literal_eval_flat "{1}" = Some (PySet [AInt 1]) ∧
  parse_reference literal_eval_flat "{1}" = PySet [AInt 1] ∧
  format_reference literal_eval_flat obj_str (RefStr "{1}") 1
    = inl AttributeError.
Proof. split_and!; reflexivity. Qed.

(** ** Effects of the nodes *)

Section NodeEffects.
Context {World : Type} {services : Services World}.

Lemma execute_unfold (query : string) (e : Env World) :
  execute query e =
    ((tavily_invoke query (world e)).1,
     mkEnv (tavily_invoke query (world e)).2
           (search_calls e ++ [query]) (visited e)).
Proof. unfold execute. by destruct (tavily_invoke _ _). Qed.

Lemma for_each_cons {A B} (f : A → M World B) (a : A) (l : list A)
    (e : Env World) :
  for_each f (a :: l) e =
    match f a e with
    | (inl x, e1) => (inl x, e1)
    | (inr b, e1) =>
        match for_each f l e1 with
        | (inl x, e2) => (inl x, e2)
        | (inr bs, e2) => (inr (b :: bs), e2)
        end
    end.
Proof.
  cbn. unfold bind. destruct (f a e) as [[x|b] e1]; [done|].
  by destruct (for_each f l e1) as [[x|bs] e2].
Qed.

(** The searches of a pass touch neither the trace of nodes nor, when
    they all return, anything but the end of the call log. *)
Lemma for_each_execute_visited (queries : list string) (e : Env World) :
  visited (for_each execute queries e).2 = visited e.
Proof.
  revert e. induction queries as [|q queries IH]; intros e; [done|].
  rewrite for_each_cons, execute_unfold.
  destruct (tavily_invoke q (world e)) as [[x|r] w]; cbn; [done|].
  match goal with |- context [for_each execute queries ?e1] =>
    specialize (IH e1); destruct (for_each execute queries e1) as [[x|bs] e2]
  end; cbn in *; done.
Qed.

Lemma for_each_execute_returns (queries : list string) (e e' : Env World)
    (outputs : list SearchResult) :
  for_each execute queries e = (inr outputs, e') →
  search_calls e' = search_calls e ++ queries ∧
  length outputs = length queries.
Proof.
  revert e e' outputs.
  induction queries as [|q queries IH]; intros e e' outputs.
  - cbn. unfold ret. intros [= <- <-]. by rewrite app_nil_r.
  - rewrite for_each_cons, execute_unfold.
    destruct (tavily_invoke q (world e)) as [[x|r] w]; cbn; [done|].
    match goal with |- context [for_each execute queries ?e1] =>
      destruct (for_each execute queries e1) as [[x|bs] e2] eqn:E
    end; [done|].
    intros [= <- <-]. destruct (IH _ _ _ E) as [Hc Hl]. cbn in *.
    by rewrite Hc, Hl, <- app_assoc.
Qed.

Lemma for_each_execute_total (queries : list string) (e : Env World) :
  search_answers →
  ∃ outputs e', for_each execute queries e = (inr outputs, e').
Proof.
  intros Hs. revert e. induction queries as [|q queries IH]; intros e.
  - by eexists _, _.
  - rewrite for_each_cons, execute_unfold.
    destruct (Hs q (world e)) as [r ->].
    match goal with |- context [for_each execute queries ?e1] =>
      destruct (IH e1) as (bs & e2 & ->)
    end. by eexists _, _.
Qed.

(** The first failing search ends the comprehension: the queries after
    it are not issued. *)
Lemma for_each_execute_raises (before after : list string) (query : string)
    (e e1 : Env World) (outputs : list SearchResult) (x : Exn) :
  for_each execute before e = (inr outputs, e1) →
  (tavily_invoke query (world e1)).1 = inl x →
  for_each execute (before ++ query :: after) e =
    (inl x, mkEnv (tavily_invoke query (world e1)).2
                  (search_calls e ++ before ++ [query]) (visited e)).
Proof.
  revert e outputs. induction before as [|q before IH]; intros e outputs.
  - intros Hret Hx. cbn in Hret. unfold ret in Hret.
    injection Hret as <- <-. cbn [app].
    rewrite for_each_cons, execute_unfold, Hx. done.
  - rewrite for_each_cons, execute_unfold. cbn [app].
    rewrite for_each_cons, execute_unfold.
    destruct (tavily_invoke q (world e)) as [[y|r] w]; cbn; [done|].
    match goal with |- context [for_each execute before ?e0] =>
      destruct (for_each execute before e0) as [[y|bs] e2] eqn:E
    end; [done|].
    intros [= <- <-] Hx. rewrite (IH _ _ E Hx). cbn.
    by rewrite <- !app_assoc.
Qed.

Lemma draft_node_visited (state : PyValue) (e : Env World) :
  visited (draft_node state e).2 = visited e.
Proof.
  unfold draft_node. destruct (normalize_state state); [done|].
  unfold bind, call_first_responder.
  by destruct (first_responder_invoke _ _) as [[x|a] w].
Qed.

Lemma revise_node_visited (state : list BaseMessage) (e : Env World) :
  visited (revise_node state e).2 = visited e.
Proof.
  unfold revise_node, bind, call_revisor.
  by destruct (revisor_invoke _ _) as [[x|a] w].
Qed.

Lemma execute_tools_node_visited (state : list BaseMessage) (e : Env World) :
  visited (execute_tools_node state e).2 = visited e.
Proof.
  unfold execute_tools_node. destruct (list.last state); [|done].
  unfold bind.
  match goal with |- context [for_each execute ?qs e] =>
    pose proof (for_each_execute_visited qs e) as Hv;
    destruct (for_each execute qs e) as [[x|bs] e2]
  end; done.
Qed.

End NodeEffects.

(** ** The graph and its runs *)

Lemma times_entered_snoc {World} (name n : string) (e e1 : Env World) :
  visited e1 = visited e ++ [n] →
  times_entered name e1 =
    times_entered name e + (if decide (n = name) then 1 else 0).
Proof.
  unfold times_entered. intros ->.
  rewrite list.filter_app, length_app. f_equal.
  rewrite filter_cons, filter_nil. by destruct (decide (n = name)).
Qed.

Section Runs.
Context {World : Type} {services : Services World}.
Variable max_iterations : Z.

Local Abbreviation g := (create_graph max_iterations).

Lemma run_S (limit : nat) (name : string) (state : list BaseMessage)
    (e : Env World) :
  run g (S limit) name state e =
    match dict_get name (nodes g) with
    | None => (inl (UnknownNode name), e)
    | Some action =>
        match action state
                (mkEnv (world e) (search_calls e) (visited e ++ [name])) with
        | (inl x, e1) => (inl x, e1)
        | (inr out, e1) =>
            match limit with
            | O => (inl GraphRecursionError, e1)
            | S _ =>
                match next_node g name (state ++ out) with
                | None => (inr (state ++ out), e1)
                | Some next =>
                    if decide (next = END) then (inr (state ++ out), e1)
                    else run g limit next (state ++ out) e1
                end
            end
        end
    end.
Proof.
  cbn [run]. destruct (dict_get name (nodes g)) as [action|]; [|done].
  unfold bind, enter.
  destruct (action state _) as [[x|out] e1]; [done|].
  destruct limit as [|limit]; [done|].
  destruct (next_node g name (state ++ out)) as [next|]; [|done].
  by destruct (decide (next = END)).
Qed.

Lemma node_draft :
  dict_get "draft" (nodes g) =
    Some (fun state => draft_node (VList (EMsg <$> state))).
Proof. reflexivity. Qed.

Lemma node_execute_tools :
  dict_get "execute_tools" (nodes g) = Some execute_tools_node.
Proof. reflexivity. Qed.

Lemma node_revise : dict_get "revise" (nodes g) = Some revise_node.
Proof. reflexivity. Qed.

Lemma next_draft (state : list BaseMessage) :
  next_node g "draft" state = Some "execute_tools".
Proof. reflexivity. Qed.

Lemma next_execute_tools (state : list BaseMessage) :
  next_node g "execute_tools" state = Some "revise".
Proof. reflexivity. Qed.

Lemma next_revise (state : list BaseMessage) :
  next_node g "revise" state = Some (event_loop max_iterations state).
Proof. reflexivity. Qed.

(** From [execute_tools] and from [revise] no run comes back to
    [draft], whatever the collaborators do. *)
Lemma run_avoids_draft (limit : nat) (name : string)
    (state : list BaseMessage) (e : Env World) :
  name = "execute_tools" ∨ name = "revise" →
  times_entered "draft" (run g limit name state e).2 =
    times_entered "draft" e.
Proof.
  revert name state e. induction limit as [|limit IH]; intros name state e;
    [done|].
  intros [-> | ->]; rewrite run_S.
  - rewrite node_execute_tools.
    match goal with |- context [execute_tools_node state ?e0] =>
      pose proof (execute_tools_node_visited state e0) as Hv;
      destruct (execute_tools_node state e0) as [[x|out] e1]
    end; cbn [snd visited] in *.
    + rewrite (times_entered_snoc _ _ _ _ Hv).
      destruct (decide (_ = "draft")); [done|lia].
    + destruct limit as [|limit'].
      { cbn [snd]. rewrite (times_entered_snoc _ _ _ _ Hv).
        destruct (decide (_ = "draft")); [done|lia]. }
      rewrite next_execute_tools.
      destruct (decide ("revise" = END)) as [?|_]; [done|].
      rewrite IH by auto.
      rewrite (times_entered_snoc _ _ _ _ Hv).
      destruct (decide (_ = "draft")); [done|lia].
  - rewrite node_revise.
    match goal with |- context [revise_node state ?e0] =>
      pose proof (revise_node_visited state e0) as Hv;
      destruct (revise_node state e0) as [[x|out] e1]
    end; cbn [snd visited] in *.
    + rewrite (times_entered_snoc _ _ _ _ Hv).
      destruct (decide (_ = "draft")); [done|lia].
    + assert (times_entered "draft" e1 = times_entered "draft" e) as He1.
      { rewrite (times_entered_snoc _ _ _ _ Hv).
      destruct (decide (_ = "draft")); [done|lia]. }
      destruct limit as [|limit']; [done|].
      rewrite next_revise.
      destruct (event_loop_cases max_iterations (state ++ out)) as [-> | ->].
      * by destruct (decide (END = END)).
      * destruct (decide ("execute_tools" = END)) as [?|_]; [done|].
        rewrite IH by auto. done.
Qed.

(** C10. The transition after REVISE answers TERMINATE or
    EXECUTE_TOOLS and never DRAFT; the one edge that leaves DRAFT goes
    to EXECUTE_TOOLS and DRAFT has no conditional edge; hence every
    invocation, however it ends, has entered DRAFT exactly once. *)
Theorem draft_runs_once :
  (∀ state, event_loop max_iterations state = END ∨
            event_loop max_iterations state = "execute_tools") ∧
  (∀ state, event_loop max_iterations state ≠ "draft") ∧
  successors g "draft" = ["execute_tools"] ∧
  dict_get "draft" (branches g) = None ∧
  entry_point g = Some "draft" ∧
  (∀ (recursion_limit : nat) (question : string) (w : World),
     0 < recursion_limit →
     times_entered "draft" (invoke g recursion_limit question (start w)).2
       = 1).
Proof.
  split_and!; try reflexivity.
  - apply event_loop_cases.
  - intros state. by destruct (event_loop_cases max_iterations state) as [-> | ->].
  - intros [|limit] question w Hlimit; [lia|].
    unfold invoke. change (entry_point g) with (Some "draft"). cbv iota.
    rewrite run_S, node_draft.
    match goal with |- context [draft_node ?v ?e0] =>
      pose proof (draft_node_visited v e0) as Hv;
      destruct (draft_node v e0) as [[x|out] e1]
    end; cbn [snd visited] in *.
    + by rewrite (times_entered_snoc _ _ _ _ Hv).
    + destruct limit as [|limit'];
        [by rewrite (times_entered_snoc _ _ _ _ Hv)|].
      rewrite next_draft.
      destruct (decide ("execute_tools" = END)) as [?|_]; [done|].
      rewrite run_avoids_draft by auto.
      by rewrite (times_entered_snoc _ _ _ _ Hv).
Qed.

End Runs.

(** ** Dictionaries *)

Section Dict.
Context {V : Type}.
Implicit Types (d : dict V) (k : string) (v : V).

Lemma dict_get_set_eq d k v : dict_get k (dict_set k v d) = Some v.
Proof.
  induction d as [|[k' v'] d IH]; cbn.
  - by destruct (decide (k = k)).
  - destruct (decide (k' = k)) as [->|Hne]; cbn.
    + by destruct (decide (k = k)).
    + by destruct (decide (k' = k)).
Qed.

Lemma dict_get_set_ne d k k' v :
  k ≠ k' → dict_get k' (dict_set k v d) = dict_get k' d.
Proof.
  intros Hne. induction d as [|[k0 v0] d IH]; cbn.
  - by destruct (decide (k = k')).
  - destruct (decide (k0 = k)) as [->|Hk]; cbn.
    + by destruct (decide (k = k')).
    + destruct (decide (k0 = k')); done.
Qed.

Lemma dict_get_None d k : dict_get k d = None ↔ k ∉ dict_keys d.
Proof.
  unfold dict_keys. induction d as [|[k' v'] d IH]; cbn.
  - split; [intros _; apply not_elem_of_nil | done].
  - rewrite not_elem_of_cons. destruct (decide (k' = k)) as [->|Hne].
    + split; [done | by intros [? _]].
    + rewrite IH. split; [by intros ?; split | by intros [_ ?]].
Qed.

Lemma dict_get_Some_elem d k v : dict_get k d = Some v → (k, v) ∈ d.
Proof.
  induction d as [|[k' v'] d IH]; cbn; [done|].
  destruct (decide (k' = k)) as [->|Hne].
  - intros [= ->]. apply list_elem_of_here.
  - intros Hg. apply list_elem_of_further, IH, Hg.
Qed.

Lemma dict_elem_get d k v :
  NoDup (dict_keys d) → (k, v) ∈ d → dict_get k d = Some v.
Proof.
  unfold dict_keys. induction d as [|[k' v'] d IH]; cbn.
  - intros _ Hin. by apply elem_of_nil in Hin.
  - rewrite list.NoDup_cons. intros [Hnew Hnd] Hin.
    apply elem_of_cons in Hin as [[= -> ->] | Hin].
    + by destruct (decide (k' = k')).
    + destruct (decide (k' = k)) as [->|Hne]; [|by apply IH].
      destruct Hnew. apply list_elem_of_fmap. by exists (k, v).
Qed.

Lemma dict_keys_set d k v :
  dict_keys (dict_set k v d) =
    if decide (k ∈ dict_keys d) then dict_keys d else dict_keys d ++ [k].
Proof.
  unfold dict_keys. induction d as [|[k' v'] d IH]; cbn.
  - destruct (decide (k ∈ [])) as [Hin|_]; [|done].
    by apply elem_of_nil in Hin.
  - destruct (decide (k' = k)) as [->|Hne]; cbn.
    + destruct (decide (k ∈ k :: d.*1)) as [_|Hn]; [done|].
      destruct Hn. apply list_elem_of_here.
    + rewrite IH. destruct (decide (k ∈ d.*1)) as [Hin|Hnin].
      * destruct (decide (k ∈ k' :: d.*1)) as [_|Hn]; [done|].
        destruct Hn. by apply list_elem_of_further.
      * destruct (decide (k ∈ k' :: d.*1)) as [Hin|_]; [|done].
        apply elem_of_cons in Hin as [->|Hin]; done.
Qed.

Lemma dict_set_NoDup d k v :
  NoDup (dict_keys d) → NoDup (dict_keys (dict_set k v d)).
Proof.
  intros Hnd. rewrite dict_keys_set.
  destruct (decide (k ∈ dict_keys d)) as [|Hnin]; [done|].
  apply list.NoDup_app. split_and!; [done | | apply NoDup_singleton].
  intros x Hx ->%list_elem_of_singleton. done.
Qed.

Lemma dict_set_keys_elem d k k' v :
  k' ∈ dict_keys (dict_set k v d) ↔ k' ∈ dict_keys d ∨ k' = k.
Proof.
  rewrite dict_keys_set. destruct (decide (k ∈ dict_keys d)) as [Hin|Hnin].
  - split; [auto | intros [?| ->]; done].
  - rewrite elem_of_app, list_elem_of_singleton. done.
Qed.

End Dict.

(** ** The aggregation of a pass *)

Lemma store_inner_same (id_ q : string) (o : SearchResult)
    (m : dict (dict SearchResult)) :
  default [] (dict_get id_ (outputs_map_store id_ q o m)) =
    dict_set q o (default [] (dict_get id_ m)).
Proof. unfold outputs_map_store. by rewrite dict_get_set_eq. Qed.

Lemma store_inner_other (id_ id' q : string) (o : SearchResult)
    (m : dict (dict SearchResult)) :
  id' ≠ id_ →
  dict_get id_ (outputs_map_store id' q o m) = dict_get id_ m.
Proof. intros Hne. unfold outputs_map_store. by rewrite dict_get_set_ne. Qed.

Lemma store_get_other (id_ q id' q' : string) (o : SearchResult)
    (m : dict (dict SearchResult)) :
  (id', q') ≠ (id_, q) →
  dict_get q (default [] (dict_get id_ (outputs_map_store id' q' o m))) =
    dict_get q (default [] (dict_get id_ m)).
Proof.
  intros Hne. destruct (decide (id' = id_)) as [->|Hid].
  - rewrite store_inner_same, dict_get_set_ne; [done|congruence].
  - by rewrite store_inner_other.
Qed.

(** The identifiers of the map are those it had and those of the
    invocations, each once. *)
Lemma group_outputs_keys (invs : list (string * string))
    (outputs : list SearchResult) (m : dict (dict SearchResult)) :
  length outputs = length invs →
  NoDup (dict_keys m) →
  NoDup (dict_keys (group_outputs invs outputs m)) ∧
  ∀ id_, id_ ∈ dict_keys (group_outputs invs outputs m)
         ↔ id_ ∈ dict_keys m ∨ id_ ∈ invs.*1.
Proof.
  revert outputs m. induction invs as [|[i q] invs IH]; intros outputs m.
  - intros _ Hnd. destruct outputs; cbn; (split; [done|]);
      intros id_; rewrite elem_of_nil; tauto.
  - destruct outputs as [|o outputs]; [done|]. cbn. intros [= Hlen] Hnd.
    destruct (IH outputs (outputs_map_store i q o m) Hlen) as [Hnd' Hkeys].
    { by apply dict_set_NoDup. }
    split; [done|]. intros id_. rewrite Hkeys. unfold outputs_map_store.
    rewrite dict_set_keys_elem, elem_of_cons. tauto.
Qed.

(** The queries filed under one identifier are those already there and
    those the invocations carry for it, each once. *)
Lemma group_outputs_inner_keys (invs : list (string * string))
    (outputs : list SearchResult) (m : dict (dict SearchResult))
    (id_ : string) :
  length outputs = length invs →
  NoDup (dict_keys (default [] (dict_get id_ m))) →
  NoDup (dict_keys (default [] (dict_get id_ (group_outputs invs outputs m)))) ∧
  ∀ q, q ∈ dict_keys (default [] (dict_get id_ (group_outputs invs outputs m)))
       ↔ q ∈ dict_keys (default [] (dict_get id_ m)) ∨ (id_, q) ∈ invs.
Proof.
  revert outputs m. induction invs as [|[i q0] invs IH]; intros outputs m.
  - intros _ Hnd. destruct outputs; cbn; (split; [done|]);
      intros q; rewrite elem_of_nil; tauto.
  - destruct outputs as [|o outputs]; [done|]. cbn. intros [= Hlen] Hnd.
    destruct (decide (i = id_)) as [->|Hne].
    + destruct (IH outputs (outputs_map_store id_ q0 o m) Hlen) as [Hnd' Hk].
      { rewrite store_inner_same. by apply dict_set_NoDup. }
      split; [done|]. intros q. rewrite Hk, store_inner_same.
      rewrite dict_set_keys_elem, elem_of_cons.
      split; [intros [[?| ->]|?]; auto | intros [?|[[= ->]|?]]; auto].
    + destruct (IH outputs (outputs_map_store i q0 o m) Hlen) as [Hnd' Hk].
      { by rewrite store_inner_other. }
      split; [done|]. intros q. rewrite Hk, store_inner_other by done.
      rewrite elem_of_cons.
      split; [intros [?|?]; auto | intros [?|[[= ? ?]|?]]; auto; done].
Qed.

(** Invocations for other identifiers or other queries leave an entry
    as it is. *)
Lemma group_outputs_other (invs : list (string * string))
    (outputs : list SearchResult) (m : dict (dict SearchResult))
    (id_ q : string) :
  (id_, q) ∉ invs →
  dict_get q (default [] (dict_get id_ (group_outputs invs outputs m))) =
    dict_get q (default [] (dict_get id_ m)).
Proof.
  revert outputs m. induction invs as [|[i q0] invs IH]; intros outputs m Hnin.
  - by destruct outputs.
  - destruct outputs as [|o outputs]; [done|]. cbn.
    apply not_elem_of_cons in Hnin as [Hne Hnin].
    rewrite IH by done. apply store_get_other. congruence.
Qed.

(** An entry holds the output of the last invocation that wrote it. *)
Lemma group_outputs_last (before after : list (string * string))
    (outputs : list SearchResult) (m : dict (dict SearchResult))
    (id_ q : string) :
  length outputs = length (before ++ (id_, q) :: after) →
  (id_, q) ∉ after →
  dict_get q
    (default [] (dict_get id_
       (group_outputs (before ++ (id_, q) :: after) outputs m)))
  = outputs !! length before.
Proof.
  revert outputs m. induction before as [|[i q0] before IH];
    intros outputs m Hlen Hnin.
  - destruct outputs as [|o outputs]; [done|]. cbn.
    rewrite group_outputs_other by done.
    by rewrite store_inner_same, dict_get_set_eq.
  - destruct outputs as [|o outputs]; [done|]. cbn in *.
    apply IH; [congruence | done].
Qed.

Lemma elem_of_tool_messages (m : dict (dict SearchResult))
    (content : dict SearchResult) (id_ : string) :
  ToolMessage content id_ ∈ tool_messages m ↔ (id_, content) ∈ m.
Proof.
  unfold tool_messages. rewrite list_elem_of_fmap. split.
  - intros ([i c] & [= -> ->] & Hin). done.
  - intros Hin. by exists (id_, content).
Qed.

Lemma turn_id_tool_messages (m : dict (dict SearchResult)) :
  turn_id <$> tool_messages m = dict_keys m.
Proof.
  unfold tool_messages, dict_keys. rewrite <- list_fmap_compose.
  apply list_fmap_ext. by intros _ [i c] _.
Qed.

Lemma tool_messages_are_tool (m : dict (dict SearchResult)) (msg : BaseMessage) :
  msg ∈ tool_messages m →
  ∃ content id_, msg = ToolMessage content id_ ∧ (id_, content) ∈ m.
Proof.
  unfold tool_messages. rewrite list_elem_of_fmap.
  intros ([i c] & -> & Hin). by eexists _, _.
Qed.

Lemma elem_of_collect_invocations (calls : list ToolCall) (id_ q : string) :
  (id_, q) ∈ collect_invocations calls ↔
  ∃ call, call ∈ calls ∧ call_id call = id_ ∧
          q ∈ search_queries (call_args call).
Proof.
  unfold collect_invocations. rewrite list_elem_of_bind. split.
  - intros (call & Hq & Hcall). apply list_elem_of_bind in Hq as (q' & Hq & Hq').
    apply list_elem_of_singleton in Hq as [= -> ->]. by exists call.
  - intros (call & Hcall & <- & Hq). exists call. split; [|done].
    apply list_elem_of_bind. exists q. split; [|done].
    by apply list_elem_of_singleton.
Qed.

Lemma collect_invocations_queries (calls : list ToolCall) :
  (collect_invocations calls).*2 =
    call ← calls; search_queries (call_args call).
Proof.
  unfold collect_invocations. induction calls as [|call calls IH]; [done|].
  cbn. rewrite fmap_app, IH. f_equal.
  induction (search_queries (call_args call)) as [|q qs IHq]; [done|].
  cbn. by rewrite IHq.
Qed.

(** ** One pass of EXECUTE_TOOLS *)

Section Pass.
Context {World : Type} {services : Services World}.

(** With a search that answers, the pass returns: it has issued the
    queries of all proposals in order and hands back the grouped
    outputs. *)
Lemma execute_tools_returns (state : list BaseMessage)
    (tool_invocation : BaseMessage) (e : Env World) :
  search_answers →
  list.last state = Some tool_invocation →
  ∃ outputs e',
    for_each execute
      (collect_invocations (parser_invoke tool_invocation)).*2 e
      = (inr outputs, e') ∧
    execute_tools_node state e =
      (inr (tool_messages
              (group_outputs
                 (collect_invocations (parser_invoke tool_invocation))
                 outputs [])), e') ∧
    search_calls e' =
      search_calls e ++
      (collect_invocations (parser_invoke tool_invocation)).*2 ∧
    visited e' = visited e ∧
    length outputs =
      length (collect_invocations (parser_invoke tool_invocation)).
Proof.
  intros Hs Hlast.
  destruct (for_each_execute_total
              (collect_invocations (parser_invoke tool_invocation)).*2 e Hs)
    as (outputs & e' & Hrun).
  exists outputs, e'.
  destruct (for_each_execute_returns _ _ _ _ Hrun) as [Hcalls Hlen].
  pose proof (for_each_execute_visited
                (collect_invocations (parser_invoke tool_invocation)).*2 e)
    as Hvis.
  rewrite Hrun in Hvis. rewrite length_fmap in Hlen.
  split_and!; try done.
  unfold execute_tools_node. rewrite Hlast. unfold bind. by rewrite Hrun.
Qed.

Lemma group_outputs_count (invs : list (string * string))
    (outputs : list SearchResult) :
  length outputs = length invs →
  length (tool_messages (group_outputs invs outputs [])) =
    length (remove_dups invs.*1).
Proof.
  intros Hlen.
  destruct (group_outputs_keys invs outputs [] Hlen) as [Hnd Hkeys];
    [apply NoDup_nil_2|].
  unfold tool_messages. rewrite length_fmap.
  rewrite <- (length_fmap fst (group_outputs invs outputs [])).
  apply Permutation_length, NoDup_Permutation;
    [done | apply NoDup_remove_dups |].
  intros id_. rewrite elem_of_remove_dups.
  change ((group_outputs invs outputs []).*1)
    with (dict_keys (group_outputs invs outputs [])).
  rewrite Hkeys. cbn. rewrite elem_of_nil. tauto.
Qed.

Lemma invocation_ids (calls : list ToolCall) :
  (∀ call, call ∈ calls → search_queries (call_args call) ≠ []) →
  ∀ id_, id_ ∈ (collect_invocations calls).*1 ↔ id_ ∈ call_id <$> calls.
Proof.
  intros Hq id_. rewrite !list_elem_of_fmap. split.
  - intros ([i q] & -> & Hin).
    apply elem_of_collect_invocations in Hin as (call & ? & <- & _).
    by exists call.
  - intros (call & -> & Hin).
    destruct (search_queries (call_args call)) as [|q qs] eqn:E;
      [by destruct (Hq call Hin)|].
    exists (call_id call, q). split; [done|].
    apply elem_of_collect_invocations. exists call. split_and!; [done..|].
    rewrite E. apply list_elem_of_here.
Qed.

(** C4. When the search answers and every proposal of the batch
    carries at least one query, the pass returns as many tool-result
    turns as the batch has distinct identifiers, whatever the number
    of queries; every proposal's identifier has its turn, and the
    queries of a turn are exactly the queries of the proposals with
    the identifier the turn carries. *)
Theorem one_turn_per_identifier (state : list BaseMessage)
    (tool_invocation : BaseMessage) (e : Env World) :
  search_answers →
  list.last state = Some tool_invocation →
  (∀ call, call ∈ parser_invoke tool_invocation →
           search_queries (call_args call) ≠ []) →
  ∃ msgs e',
    execute_tools_node state e = (inr msgs, e') ∧
    length msgs =
      length (remove_dups (call_id <$> parser_invoke tool_invocation)) ∧
    NoDup msgs ∧
    (∀ call, call ∈ parser_invoke tool_invocation →
             ∃ content, ToolMessage content (call_id call) ∈ msgs) ∧
    (∀ msg, msg ∈ msgs →
       ∃ content id_,
         msg = ToolMessage content id_ ∧
         (∀ q, q ∈ dict_keys content ↔
               ∃ call, call ∈ parser_invoke tool_invocation ∧
                       call_id call = id_ ∧
                       q ∈ search_queries (call_args call))).
Proof.
  intros Hs Hlast Hq.
  destruct (execute_tools_returns state tool_invocation e Hs Hlast)
    as (outputs & e' & _ & Hnode & _ & _ & Hlen).
  set (invs := collect_invocations (parser_invoke tool_invocation)) in *.
  destruct (group_outputs_keys invs outputs [] Hlen) as [Hnd Hkeys];
    [apply NoDup_nil_2|].
  eexists _, e'. split; [exact Hnode|]. split_and!.
  - rewrite group_outputs_count by done.
    apply Permutation_length, NoDup_Permutation;
      [apply NoDup_remove_dups.. |].
    intros id_. rewrite !elem_of_remove_dups. by apply invocation_ids.
  - unfold tool_messages. eapply NoDup_fmap_1 with (f := λ m,
      match m with ToolMessage _ i => i | _ => EmptyString end).
    rewrite <- list_fmap_compose.
    erewrite list_fmap_ext; [exact Hnd|]. by intros _ [i c] _.
  - intros call Hcall.
    assert (call_id call ∈ dict_keys (group_outputs invs outputs []))
      as Hin.
    { apply Hkeys. right. apply invocation_ids; [done|].
      apply list_elem_of_fmap. by exists call. }
    apply list_elem_of_fmap in Hin as ([i c] & Hi & Hin). cbn in Hi.
    subst i. exists c. by apply elem_of_tool_messages.
  - intros msg Hmsg.
    apply tool_messages_are_tool in Hmsg as (content & id_ & -> & Hin).
    exists content, id_. split; [done|]. intros q.
    apply (dict_elem_get _ _ _ Hnd) in Hin.
    destruct (group_outputs_inner_keys invs outputs [] id_ Hlen)
      as [_ Hinner]; [apply NoDup_nil_2|].
    rewrite Hin in Hinner. cbn in Hinner.
    rewrite Hinner, elem_of_nil, <- elem_of_collect_invocations. tauto.
Qed.

(** A comprehension that returns has run its body on every element in
    turn, each from the environment left by the one before. *)
Lemma for_each_split {A B} (f : A → M World B) (l1 l2 : list A) (a : A)
    (e e' : Env World) (outs : list B) :
  for_each f (l1 ++ a :: l2) e = (inr outs, e') →
  ∃ outs1 e1 b e2 outs2,
    for_each f l1 e = (inr outs1, e1) ∧
    f a e1 = (inr b, e2) ∧
    for_each f l2 e2 = (inr outs2, e') ∧
    outs = outs1 ++ b :: outs2 ∧
    length outs1 = length l1.
Proof.
  revert e outs. induction l1 as [|a1 l1 IH]; intros e outs.
  - cbn [app]. rewrite for_each_cons.
    destruct (f a e) as [[x|b] e2] eqn:Ha; [done|].
    destruct (for_each f l2 e2) as [[x|outs2] e3] eqn:Hl2; [done|].
    intros [= <- <-]. by exists [], e, b, e2, outs2.
  - cbn [app]. rewrite !for_each_cons.
    destruct (f a1 e) as [[x|b1] e0]; [done|].
    destruct (for_each f (l1 ++ a :: l2) e0) as [[x|outs0] e3] eqn:Hrest;
      [done|].
    intros [= <- <-].
    destruct (IH _ _ Hrest) as (outs1 & e1 & b & e2 & outs2 & -> & Ha & Hl2
                                & -> & Hlen).
    exists (b1 :: outs1), e1, b, e2, outs2. cbn. by rewrite Hlen.
Qed.

(** C8. When the search answers, the pass issues one call per
    occurrence of a query, in order, and returns one turn per
    identifier. The mapping of a turn has each query of its identifier
    once. For the last occurrence of a query under an identifier, the
    turn of that identifier exists and its entry for the query holds
    what the search call issued for that occurrence returned, in the
    world that the calls before it left: the outputs of earlier calls
    for the same query are not in the turn. *)
Theorem duplicate_queries_last_wins (state : list BaseMessage)
    (tool_invocation : BaseMessage) (e : Env World) :
  search_answers →
  list.last state = Some tool_invocation →
  ∃ outputs msgs e',
    for_each execute
      (collect_invocations (parser_invoke tool_invocation)).*2 e
      = (inr outputs, e') ∧
    execute_tools_node state e = (inr msgs, e') ∧
    search_calls e' =
      search_calls e ++
      (call ← parser_invoke tool_invocation;
       search_queries (call_args call)) ∧
    length outputs =
      length (call ← parser_invoke tool_invocation;
              search_queries (call_args call)) ∧
    NoDup (turn_id <$> msgs) ∧
    (∀ content id_,
       ToolMessage content id_ ∈ msgs →
       NoDup (dict_keys content) ∧
       (∀ q, q ∈ dict_keys content ↔
             (id_, q) ∈ collect_invocations (parser_invoke tool_invocation)) ∧
       (∀ before after q,
          collect_invocations (parser_invoke tool_invocation)
            = before ++ (id_, q) :: after →
          (id_, q) ∉ after →
          dict_get q content = outputs !! length before)) ∧
    (∀ before after id_ q,
       collect_invocations (parser_invoke tool_invocation)
         = before ++ (id_, q) :: after →
       (id_, q) ∉ after →
       ∃ content outputs1 e1 output e2,
         ToolMessage content id_ ∈ msgs ∧
         for_each execute before.*2 e = (inr outputs1, e1) ∧
         execute q e1 = (inr output, e2) ∧
         outputs !! length before = Some output ∧
         dict_get q content = Some output).
Proof.
  intros Hs Hlast.
  destruct (execute_tools_returns state tool_invocation e Hs Hlast)
    as (outputs & e' & Hrun & Hnode & Hcalls & _ & Hlen).
  set (invs := collect_invocations (parser_invoke tool_invocation)) in *.
  destruct (group_outputs_keys invs outputs [] Hlen) as [Hnd Hkeys];
    [apply NoDup_nil_2|].
  assert (∀ content id_,
            ToolMessage content id_
              ∈ tool_messages (group_outputs invs outputs []) →
            ∀ before after q,
              invs = before ++ (id_, q) :: after →
              (id_, q) ∉ after →
              dict_get q content = outputs !! length before) as Hlast_wins.
  { intros content id_ Hin before after q Hsplit Hnin.
    apply elem_of_tool_messages, (dict_elem_get _ _ _ Hnd) in Hin.
    pose proof (group_outputs_last before after outputs [] id_ q) as Hl.
    rewrite <- Hsplit, Hin in Hl. apply Hl; [|done]. by rewrite Hlen. }
  eexists outputs, _, e'. split; [exact Hrun|]. split; [exact Hnode|].
  split_and!.
  - rewrite Hcalls. subst invs. by rewrite collect_invocations_queries.
  - rewrite Hlen. subst invs.
    by rewrite <- collect_invocations_queries, length_fmap.
  - by rewrite turn_id_tool_messages.
  - intros content id_ Hin.
    pose proof (Hlast_wins content id_ Hin) as Hwins.
    apply elem_of_tool_messages, (dict_elem_get _ _ _ Hnd) in Hin.
    destruct (group_outputs_inner_keys invs outputs [] id_ Hlen)
      as [Hnd' Hinner]; [apply NoDup_nil_2|].
    rewrite Hin in Hnd', Hinner. cbn in Hnd', Hinner. split_and!.
    + done.
    + intros q. rewrite Hinner, elem_of_nil. tauto.
    + done.
  - intros before after id_ q Hsplit Hnin.
    assert (id_ ∈ dict_keys (group_outputs invs outputs [])) as Hid.
    { apply Hkeys. right. rewrite Hsplit, fmap_app, fmap_cons.
      apply elem_of_app. right. apply list_elem_of_here. }
    apply list_elem_of_fmap in Hid as ([i content] & Hi & Hin). cbn in Hi.
    subst i. apply elem_of_tool_messages in Hin.
    pose proof Hrun as Hrun'.
    rewrite Hsplit, fmap_app, fmap_cons in Hrun'. cbn [snd] in Hrun'.
    destruct (for_each_split _ _ _ _ _ _ _ Hrun')
      as (outputs1 & e1 & output & e2 & outputs2 & Hbefore & Hcall & _
          & Houts & Hlen1).
    rewrite length_fmap in Hlen1.
    assert (outputs !! length before = Some output) as Hout.
    { rewrite Houts, <- Hlen1. by apply list_lookup_middle. }
    exists content, outputs1, e1, output, e2.
    split_and!; [done..|].
    rewrite (Hlast_wins content id_ Hin before after q Hsplit Hnin).
    exact Hout.
Qed.

End Pass.

Section SinglePass.
Context {World : Type} {services : Services World}.

Lemma single_invocations (call : ToolCall) :
  collect_invocations [call] =
    (λ q, (call_id call, q)) <$> search_queries (call_args call).
Proof.
  unfold collect_invocations. cbn. rewrite app_nil_r.
  induction (search_queries (call_args call)) as [|q qs IH]; [done|].
  cbn. by rewrite IH.
Qed.

Lemma group_outputs_single (id_ : string) (queries : list string)
    (outputs : list SearchResult) (d : dict SearchResult) :
  ∃ d', group_outputs ((λ q, (id_, q)) <$> queries) outputs [(id_, d)]
        = [(id_, d')].
Proof.
  revert outputs d. induction queries as [|q queries IH]; intros outputs d.
  - exists d. by destruct outputs.
  - destruct outputs as [|o outputs]; [by exists d|]. cbn.
    unfold outputs_map_store. cbn. destruct (decide (id_ = id_)); [|done].
    cbn. apply IH.
Qed.

(** The pass on a message with one proposal. *)
Lemma execute_tools_single (state : list BaseMessage)
    (tool_invocation : BaseMessage) (call : ToolCall) (e : Env World) :
  search_answers →
  list.last state = Some tool_invocation →
  parser_invoke tool_invocation = [call] →
  ∃ msgs e',
    execute_tools_node state e = (inr msgs, e') ∧
    search_calls e' = search_calls e ++ search_queries (call_args call) ∧
    visited e' = visited e ∧
    match search_queries (call_args call) with
    | [] => msgs = []
    | _ :: _ => ∃ content, msgs = [ToolMessage content (call_id call)]
    end.
Proof.
  intros Hs Hlast Hcall.
  destruct (execute_tools_returns state tool_invocation e Hs Hlast)
    as (outputs & e' & _ & Hnode & Hcalls & Hvis & Hlen).
  rewrite Hcall, single_invocations in *.
  eexists _, e'. split; [exact Hnode|].
  rewrite <- list_fmap_compose in Hcalls. cbn in Hcalls.
  rewrite list_fmap_id in Hcalls. split_and!; [done..|].
  destruct (search_queries (call_args call)) as [|q queries]; [done|].
  destruct outputs as [|o outputs]; [done|]. cbn.
  unfold outputs_map_store. cbn.
  destruct (group_outputs_single (call_id call) queries outputs [(q, o)])
    as [d' ->].
  by exists d'.
Qed.

(** C2. When the search answers, the pass on a message that carries
    one proposal with [k] queries issues exactly these [k] search
    calls, in order. For [k >= 1] it returns exactly one tool-result
    turn, under the proposal's identifier, whose mapping has exactly
    the proposal's queries; for [k = 0] it returns no turn. *)
Theorem single_proposal_pass (state : list BaseMessage)
    (tool_invocation : BaseMessage) (call : ToolCall) (e : Env World) :
  search_answers →
  list.last state = Some tool_invocation →
  parser_invoke tool_invocation = [call] →
  ∃ msgs e',
    execute_tools_node state e = (inr msgs, e') ∧
    search_calls e' = search_calls e ++ search_queries (call_args call) ∧
    length (search_calls e') =
      length (search_calls e) + length (search_queries (call_args call)) ∧
    match search_queries (call_args call) with
    | [] => msgs = []
    | _ :: _ =>
        ∃ content,
          msgs = [ToolMessage content (call_id call)] ∧
          NoDup (dict_keys content) ∧
          ∀ q, q ∈ dict_keys content ↔ q ∈ search_queries (call_args call)
    end.
Proof.
  intros Hs Hlast Hcall.
  destruct (execute_tools_single state tool_invocation call e Hs Hlast Hcall)
    as (msgs & e' & Hnode & Hcalls & _ & Hshape).
  exists msgs, e'. split_and!; [done..| by rewrite Hcalls, length_app |].
  destruct (search_queries (call_args call)) as [|q0 queries] eqn:Eq;
    [done|].
  destruct Hshape as [content ->]. exists content. split; [done|].
  destruct (execute_tools_returns state tool_invocation e Hs Hlast)
    as (outputs & e2 & _ & Hnode' & _ & _ & Hlen).
  rewrite Hnode in Hnode'. injection Hnode' as Hmsgs _.
  assert (ToolMessage content (call_id call) ∈
            tool_messages
              (group_outputs
                 (collect_invocations (parser_invoke tool_invocation))
                 outputs [])) as Hin.
  { rewrite <- Hmsgs. apply list_elem_of_here. }
  destruct (group_outputs_keys _ outputs [] Hlen) as [Hnd _];
    [apply NoDup_nil_2|].
  apply elem_of_tool_messages, (dict_elem_get _ _ _ Hnd) in Hin.
  destruct (group_outputs_inner_keys _ outputs [] (call_id call) Hlen)
    as [Hnd' Hinner]; [apply NoDup_nil_2|].
  rewrite Hin in Hnd', Hinner. cbn in Hnd', Hinner. split; [done|].
  intros q. rewrite Hinner, elem_of_nil, elem_of_collect_invocations, Hcall.
  split.
  - intros [[]|(c & ->%list_elem_of_singleton & _ & Hq)]. by rewrite <- Eq.
  - intros Hq. right. exists call. rewrite Eq.
    split_and!; [apply list_elem_of_here | done..].
Qed.

(** C9. When the calls for the queries before [query] have returned
    and the call for [query] raises, the pass raises the same
    exception: it returns no turn, the queries after [query] are not
    issued, and a run of the graph that is at EXECUTE_TOOLS ends with
    that exception. *)
Theorem search_failure_aborts (state : list BaseMessage)
    (tool_invocation : BaseMessage) (before after : list string)
    (query : string) (e e1 : Env World) (outputs : list SearchResult)
    (x : Exn) :
  list.last state = Some tool_invocation →
  (call ← parser_invoke tool_invocation; search_queries (call_args call))
    = before ++ query :: after →
  for_each execute before e = (inr outputs, e1) →
  (tavily_invoke query (world e1)).1 = inl x →
  ∃ e',
    execute_tools_node state e = (inl x, e') ∧
    search_calls e' = search_calls e ++ before ++ [query] ∧
    ∀ (max_iterations : Z) (limit : nat) (e0 : Env World),
      e = mkEnv (world e0) (search_calls e0)
                (visited e0 ++ ["execute_tools"]) →
      run (create_graph max_iterations) (S limit) "execute_tools" state e0
        = (inl x, e').
Proof.
  intros Hlast Hqueries Hbefore Hfail.
  pose proof (for_each_execute_raises before after query e e1 outputs x
                Hbefore Hfail) as Hraise.
  eexists. split_and!.
  - unfold execute_tools_node. rewrite Hlast. unfold bind.
    rewrite collect_invocations_queries, Hqueries, Hraise. reflexivity.
  - done.
  - intros max_iterations limit e0 He.
    rewrite run_S, node_execute_tools, <- He.
    unfold execute_tools_node. rewrite Hlast. unfold bind.
    by rewrite collect_invocations_queries, Hqueries, Hraise.
Qed.

End SinglePass.

(** ** Whole runs *)

Lemma count_tool_visits_tool (state : list BaseMessage)
    (content : dict SearchResult) (id_ : string) :
  count_tool_visits (state ++ [ToolMessage content id_]) =
    (count_tool_visits state + 1)%Z.
Proof.
  unfold count_tool_visits. rewrite list.filter_app, length_app.
  rewrite filter_cons_True by done. rewrite filter_nil. cbn. lia.
Qed.

Lemma count_tool_visits_ai (state : list BaseMessage) (a : AIMsg) :
  count_tool_visits (state ++ [AIMessage a]) = count_tool_visits state.
Proof.
  unfold count_tool_visits. rewrite list.filter_app, length_app.
  rewrite filter_cons_False by done. rewrite filter_nil. cbn. lia.
Qed.

Lemma count_tool_visits_nonneg (state : list BaseMessage) :
  (0 <= count_tool_visits state)%Z.
Proof. unfold count_tool_visits. lia. Qed.

Lemma times_entered_app {World} (name : string) (e e' : Env World)
    (trace : list string) :
  visited e' = visited e ++ trace →
  times_entered name e' =
    times_entered name e + length (filter (λ n, n = name) trace).
Proof.
  unfold times_entered. intros ->. by rewrite list.filter_app, length_app.
Qed.

Lemma revise_in_cycles (k : nat) :
  length (filter (λ n, n = "revise")
            (concat (replicate k ["execute_tools"; "revise"]))) = k.
Proof.
  induction k as [|k IH]; [done|].
  cbn [replicate concat]. rewrite list.filter_app, length_app, IH.
  reflexivity.
Qed.

Section WholeRuns.
Context {World : Type} {services : Services World}.
Variable max_iterations : Z.
Hypothesis search_ok : search_answers.
Hypothesis chains_ok : chains_answer.

Lemma revise_node_answers (state : list BaseMessage) (e : Env World) :
  ∃ a e', revise_node state e = (inr [AIMessage a], e') ∧
          one_proposal a ∧ visited e' = visited e.
Proof.
  destruct chains_ok as [_ Hrev].
  destruct (Hrev state (world e)) as (a & Ha & Hone).
  unfold revise_node, bind, call_revisor.
  destruct (revisor_invoke state (world e)) as [r w]. cbn in Ha. subst r.
  by eexists _, _.
Qed.

Lemma draft_node_answers (question : string) (e : Env World) :
  ∃ a e',
    draft_node (VList (EMsg <$> [HumanMessage question])) e
      = (inr [AIMessage a], e') ∧
    one_proposal a ∧ visited e' = visited e.
Proof.
  destruct chains_ok as [Hfirst _].
  unfold draft_node. cbn.
  destruct (Hfirst [EMsg (HumanMessage question)] (world e))
    as (a & Ha & Hone).
  unfold bind, call_first_responder.
  destruct (first_responder_invoke _ (world e)) as [r w]. cbn in Ha.
  subst r. by eexists _, _.
Qed.

(** From EXECUTE_TOOLS, with [k] passes left before the count of
    tool-result turns passes the threshold, a run whose limit leaves
    room makes exactly [k] passes, each followed by a revision, and
    returns. *)
Lemma run_cycles (k : nat) :
  ∀ (limit : nat) (state : list BaseMessage) (a : AIMsg) (e : Env World),
    list.last state = Some (AIMessage a) →
    one_proposal a →
    (1 ≤ k)%nat →
    (count_tool_visits state + Z.of_nat k = Z.max max_iterations 0 + 1)%Z →
    (2 * k + 1 ≤ limit)%nat →
    ∃ final e',
      run (create_graph max_iterations) limit "execute_tools" state e
        = (inr final, e') ∧
      visited e' =
        visited e ++ concat (replicate k ["execute_tools"; "revise"]) ∧
      count_tool_visits final = (Z.max max_iterations 0 + 1)%Z.
Proof.
  induction k as [|k IH]; intros limit state a e Hlast Hone Hk Hcount Hlimit;
    [lia|].
  destruct limit as [|[|[|limit]]]; [lia..|].
  destruct Hone as (call & Hcalls & Hqueries).
  (* the pass *)
  rewrite run_S, node_execute_tools.
  match goal with |- context [execute_tools_node state ?e0] =>
    destruct (execute_tools_single state (AIMessage a) call e0 search_ok
                Hlast Hcalls) as (msgs & e1 & -> & _ & Hv1 & Hshape)
  end.
  destruct (search_queries (call_args call)) as [|q qs]; [done|].
  destruct Hshape as [content ->]. cbn [visited] in Hv1.
  rewrite next_execute_tools.
  destruct (decide ("revise" = END)) as [?|_]; [done|].
  (* the revision *)
  rewrite run_S, node_revise.
  match goal with |- context [revise_node ?s ?e0] =>
    destruct (revise_node_answers s e0) as (a' & e2 & -> & Hone' & Hv2)
  end.
  cbn [visited] in Hv2. rewrite next_revise.
  set (state' := (state ++ [ToolMessage content (call_id call)])
                   ++ [AIMessage a']).
  assert (count_tool_visits state' = (count_tool_visits state + 1)%Z)
    as Hcount'.
  { unfold state'. by rewrite count_tool_visits_ai, count_tool_visits_tool. }
  pose proof (count_tool_visits_nonneg state) as Hnonneg.
  unfold event_loop.
  destruct (Z.gtb_spec (count_tool_visits state') max_iterations)
    as [Hgt|Hle].
  - (* the threshold is passed: this was the last pass *)
    destruct (decide (END = END)); [|done].
    assert (k = 0) as -> by lia.
    exists state', e2. split_and!; [done | | lia].
    rewrite Hv2, Hv1. cbn. by rewrite <- !app_assoc.
  - destruct (decide ("execute_tools" = END)) as [?|_]; [done|].
    destruct (IH (S limit) state' a' e2) as (final & e' & -> & Hv & Hfinal);
      [apply last_snoc | done | lia | lia | lia |].
    exists final, e'. split_and!; [done | | done].
    rewrite Hv, Hv2, Hv1. cbn. by rewrite <- !app_assoc.
Qed.

End WholeRuns.

(* ================================================================== *)
(** * The properties on the sample collaborators *)

Lemma sample_search_answers : search_answers (services := sample_services).
Proof. intros query w. by eexists. Qed.

Lemma sample_chains_answer : chains_answer (services := sample_services).
Proof.
  split; intros messages w; eexists; (split; [reflexivity|]);
    eexists; split; [reflexivity | done | reflexivity | done].
Qed.

(** C10 on a run with threshold 3: DRAFT is entered once. *)
Lemma draft_runs_once_witness :
  0 < 25 ∧
  times_entered "draft"
    (invoke (create_graph (services := sample_services) 3) 25 "why"
            (start 0)).2 = 1.
Proof.
  split; [lia|].
  destruct (draft_runs_once (services := sample_services) 3)
    as (_ & _ & _ & _ & _ & Hruns).
  apply Hruns. lia.
Defined.

(** C4 on a batch of three proposals with four queries and two
    identifiers: two turns. *)
Lemma one_turn_per_identifier_witness :
  search_answers (services := sample_services) ∧
  ∃ msgs e',
    execute_tools_node (services := sample_services)
      (history_with [proposal "a" ["x"; "y"]; proposal "b" ["z"];
                     proposal "a" ["w"]])
      (start 0) = (inr msgs, e') ∧
    length msgs = 2.
Proof.
  split; [exact sample_search_answers|].
  destruct (one_turn_per_identifier (services := sample_services)
              (history_with [proposal "a" ["x"; "y"]; proposal "b" ["z"];
                             proposal "a" ["w"]])
              (AIMessage (mkAI EmptyString [proposal "a" ["x"; "y"];
                                   proposal "b" ["z"];
                                   proposal "a" ["w"]]))
              (start 0) sample_search_answers eq_refl)
    as (msgs & e' & Hnode & Hlen & _).
  - intros call Hin. cbn in Hin.
    repeat (apply elem_of_cons in Hin as [-> | Hin]; [done|]).
    by apply elem_of_nil in Hin.
  - exists msgs, e'. split; [exact Hnode|]. rewrite Hlen. reflexivity.
Defined.

(** C8 on a proposal that asks [x], [y] and [x] again: three calls, and
    the entry of [x] in the turn is what the third call returned, not
    what the first did. *)
Lemma duplicate_queries_last_wins_witness :
  search_answers (services := sample_services) ∧
  ∃ msgs e' content,
    execute_tools_node (services := sample_services)
      (history_with [proposal "a" ["x"; "y"; "x"]]) (start 0)
      = (inr msgs, e') ∧
    search_calls e' = ["x"; "y"; "x"] ∧
    ToolMessage content "a" ∈ msgs ∧
    dict_get "x" content = Some [sample_hit "x" 2] ∧
    [sample_hit "x" 2] ≠ [sample_hit "x" 0].
Proof.
  split; [exact sample_search_answers|].
  destruct (duplicate_queries_last_wins (services := sample_services)
              (history_with [proposal "a" ["x"; "y"; "x"]])
              (AIMessage (mkAI EmptyString [proposal "a" ["x"; "y"; "x"]]))
              (start 0) sample_search_answers eq_refl)
    as (outputs & msgs & e' & _ & Hnode & Hcalls & _ & _ & _ & Hstored).
  destruct (Hstored [("a", "x"); ("a", "y")] [] "a" "x" eq_refl)
    as (content & outputs1 & e1 & output & e2 & Hin & Hbefore & Hcall & _
        & Hentry); [apply not_elem_of_nil|].
  vm_compute in Hbefore. injection Hbefore as <- <-.
  vm_compute in Hcall. injection Hcall as <- <-.
  exists msgs, e', content.
  split_and!; [exact Hnode | exact Hcalls | exact Hin | exact Hentry |].
  discriminate.
Defined.

(** C2 on a proposal with two queries: two calls and one turn. *)
Lemma single_proposal_pass_witness :
  search_answers (services := sample_services) ∧
  ∃ content e',
    execute_tools_node (services := sample_services)
      (history_with [proposal "a" ["x"; "y"]]) (start 0)
      = (inr [ToolMessage content "a"], e') ∧
    search_calls e' = ["x"; "y"].
Proof.
  split; [exact sample_search_answers|].
  destruct (single_proposal_pass (services := sample_services)
              (history_with [proposal "a" ["x"; "y"]])
              (AIMessage (mkAI EmptyString [proposal "a" ["x"; "y"]]))
              (proposal "a" ["x"; "y"]) (start 0)
              sample_search_answers eq_refl eq_refl)
    as (msgs & e' & Hnode & Hcalls & _ & content & Hmsgs & _).
  exists content, e'. rewrite Hmsgs in Hnode.
  split; [exact Hnode | exact Hcalls].
Defined.

(** The pass on a proposal without queries returns no turn: not one
    turn with an empty mapping. *)
Lemma single_proposal_no_queries :
  search_answers (services := sample_services) ∧
  execute_tools_node (services := sample_services)
    (history_with [proposal "call_0" []]) (start 0)
    = (inr [], start 0) ∧
  ¬ ∃ content id_ e',
      execute_tools_node (services := sample_services)
        (history_with [proposal "call_0" []]) (start 0)
      = (inr [ToolMessage content id_], e').
Proof.
  split; [exact sample_search_answers|]. split; [reflexivity|].
  intros (content & id_ & e' & Hnode). discriminate Hnode.
Qed.

(** C9 with a search that raises on the second of three queries. *)
Lemma search_failure_aborts_witness :
  ∃ e',
    execute_tools_node (services := failing_services)
      (history_with [proposal "a" ["x"; "unreachable"; "z"]])
      (mkEnv 0 [] ["draft"; "execute_tools"])
      = (inl (SearchError "connection refused"), e') ∧
    search_calls e' = ["x"; "unreachable"] ∧
    run (create_graph (services := failing_services) 3) 25 "execute_tools"
        (history_with [proposal "a" ["x"; "unreachable"; "z"]])
        (mkEnv 0 [] ["draft"])
      = (inl (SearchError "connection refused"), e').
Proof.
  destruct (search_failure_aborts (services := failing_services)
              (history_with [proposal "a" ["x"; "unreachable"; "z"]])
              (AIMessage (mkAI EmptyString [proposal "a" ["x"; "unreachable"; "z"]]))
              ["x"] ["z"] "unreachable"
              (mkEnv 0 [] ["draft"; "execute_tools"])
              (mkEnv 1 ["x"] ["draft"; "execute_tools"])
              [[sample_hit "x" 0]]
              (SearchError "connection refused")
              eq_refl eq_refl eq_refl eq_refl)
    as (e' & Hnode & Hcalls & Hrun).
  exists e'. split_and!; [exact Hnode | exact Hcalls |].
  exact (Hrun 3%Z 24 (mkEnv 0 [] ["draft"]) eq_refl).
Defined.

(** With threshold -1 the run makes one revision, not
    [max_iterations + 1 = 0]; its one pass added one tool-result
    turn. *)
Lemma revise_cycles_negative_threshold :
  ∃ final e',
    invoke (create_graph (services := sample_services) (-1)) 25 "why"
           (start 0) = (inr final, e') ∧
    times_entered "execute_tools" e' = 1 ∧
    count_tool_visits final = 1%Z ∧
    times_entered "revise" e' = 1 ∧
    Z.of_nat (times_entered "revise" e') ≠ (-1 + 1)%Z.
Proof.
  destruct (invoke (create_graph (services := sample_services) (-1)) 25
              "why" (start 0)) as [r e'] eqn:Hrun.
  vm_compute in Hrun. injection Hrun as <- <-.
  eexists _, _. split; [reflexivity|].
  split_and!; [reflexivity .. | discriminate].
Qed.

(* ================================================================== *)
(** * Further properties *)

(** ** What a run returns *)

(** X5. Once the transition function answers TERMINATE it keeps doing
    so for every longer history, and for every smaller threshold. *)
Theorem event_loop_stable (max_iterations lower : Z)
    (state more : list BaseMessage) :
  event_loop max_iterations state = END →
  (lower <= max_iterations)%Z →
  event_loop lower (state ++ more) = END.
Proof.
  unfold event_loop, count_tool_visits.
  rewrite list.filter_app, length_app.
  destruct (Z.gtb_spec (Z.of_nat (length (filter (λ m, is_ToolMessage m = true)
                                             state))) max_iterations);
    [|done].
  intros _ Hlower.
  destruct (Z.gtb_spec
              (Z.of_nat (length (filter (λ m, is_ToolMessage m = true) state)
                         + length (filter (λ m, is_ToolMessage m = true) more)))
              lower); [done | lia].
Qed.

Section RunShape.
Context {World : Type} {services : Services World}.
Variable max_iterations : Z.

Local Abbreviation g := (create_graph max_iterations).

Lemma draft_node_output (state : PyValue) (e e' : Env World)
    (out : list BaseMessage) :
  draft_node state e = (inr out, e') → ∃ a, out = [AIMessage a].
Proof.
  unfold draft_node. destruct (normalize_state state); [done|].
  unfold bind. destruct (call_first_responder l e) as [[x|a] e1]; [done|].
  intros [= <- _]. by exists a.
Qed.

Lemma revise_node_output (state : list BaseMessage) (e e' : Env World)
    (out : list BaseMessage) :
  revise_node state e = (inr out, e') → ∃ a, out = [AIMessage a].
Proof.
  unfold revise_node, bind.
  destruct (call_revisor state e) as [[x|a] e1]; [done|].
  intros [= <- _]. by exists a.
Qed.

(** A run that returns has gone through EXECUTE_TOOLS and REVISE in
    turn, has only added to the state, and ends on a revision that
    brings the count of tool-result turns above the threshold. *)
Lemma run_returns (limit : nat) :
  ∀ (name : string) (state final : list BaseMessage) (e e' : Env World),
    name = "execute_tools" ∨ name = "revise" →
    run g limit name state e = (inr final, e') →
    (∃ mid a, final = state ++ mid ++ [AIMessage a]) ∧
    (count_tool_visits final > max_iterations)%Z ∧
    ∃ k, visited e' =
           visited e ++
           (if decide (name = "revise") then ["revise"] else []) ++
           concat (replicate k ["execute_tools"; "revise"]) ∧
         (name = "execute_tools" → (1 ≤ k)%nat).
Proof.
  induction limit as [|limit IH]; intros name state final e e' Hname;
    [done|].
  destruct Hname as [-> | ->]; rewrite run_S.
  - rewrite node_execute_tools.
    match goal with |- context [execute_tools_node state ?e0] =>
      pose proof (execute_tools_node_visited state e0) as Hv;
      destruct (execute_tools_node state e0) as [[x|out] e1]
    end; [done|]. cbn [snd visited] in Hv.
    destruct limit as [|limit']; [done|].
    rewrite next_execute_tools.
    destruct (decide ("revise" = END)) as [?|_]; [done|].
    intros Hrun. destruct (IH _ _ _ _ _ (or_intror eq_refl) Hrun)
      as ((mid & a & ->) & Hcount & k & Hvis & _).
    split_and!.
    + exists (out ++ mid), a. by rewrite <- !app_assoc.
    + done.
    + exists (S k). split; [|lia]. rewrite Hvis, Hv. cbn.
      by rewrite <- !app_assoc.
  - rewrite node_revise.
    match goal with |- context [revise_node state ?e0] =>
      pose proof (revise_node_visited state e0) as Hv;
      destruct (revise_node state e0) as [[x|out] e1] eqn:Hnode
    end; [done|]. cbn [snd visited] in Hv.
    destruct (revise_node_output _ _ _ _ Hnode) as [a ->].
    destruct limit as [|limit']; [done|].
    rewrite next_revise.
    destruct (event_loop_cases max_iterations (state ++ [AIMessage a]))
      as [Hend | Hgo]; [rewrite Hend | rewrite Hgo].
    + destruct (decide (END = END)); [|done]. intros [= <- <-].
      split_and!.
      * by exists [], a.
      * unfold event_loop in Hend.
        destruct (Z.gtb_spec (count_tool_visits (state ++ [AIMessage a]))
                    max_iterations); [lia | done].
      * exists 0. split; [|done]. rewrite Hv. cbn. by rewrite app_nil_r.
    + destruct (decide ("execute_tools" = END)) as [?|_]; [done|].
      intros Hrun. destruct (IH _ _ _ _ _ (or_introl eq_refl) Hrun)
        as ((mid & a' & ->) & Hcount & k & Hvis & _).
      split_and!.
      * exists ([AIMessage a] ++ mid), a'. by rewrite <- !app_assoc.
      * done.
      * exists k. split; [|done]. rewrite Hvis, Hv. cbn.
        by rewrite <- !app_assoc.
Qed.

(** X1. The history that an invocation returns opens with the question
    and the draft, ends with a revision, and holds more tool-result
    turns than the threshold. *)
Theorem invoke_returns_history (recursion_limit : nat) (question : string)
    (e e' : Env World) (final : list BaseMessage) :
  invoke g recursion_limit question e = (inr final, e') →
  (∃ draft mid revision,
     final = [HumanMessage question; AIMessage draft] ++ mid
             ++ [AIMessage revision]) ∧
  (count_tool_visits final > max_iterations)%Z.
Proof.
  unfold invoke. change (entry_point g) with (Some "draft"). cbv iota.
  destruct recursion_limit as [|limit]; [done|].
  rewrite run_S, node_draft.
  match goal with |- context [draft_node ?v ?e0] =>
    destruct (draft_node v e0) as [[x|out] e1] eqn:Hnode
  end; [done|].
  destruct (draft_node_output _ _ _ _ Hnode) as [a ->].
  destruct limit as [|limit']; [done|].
  rewrite next_draft.
  destruct (decide ("execute_tools" = END)) as [?|_]; [done|].
  intros Hrun.
  destruct (run_returns (S limit') _ _ _ _ _ (or_introl eq_refl) Hrun)
    as ((mid & a' & ->) & Hcount & _).
  split; [|done]. by exists a, mid, a'.
Qed.

(** X2. The nodes that an invocation which returns has entered are
    DRAFT and then EXECUTE_TOOLS and REVISE in turn, at least once:
    there are as many revisions as passes. *)
Theorem invoke_trace (recursion_limit : nat) (question : string)
    (e e' : Env World) (final : list BaseMessage) :
  invoke g recursion_limit question e = (inr final, e') →
  ∃ k, (1 ≤ k)%nat ∧
       visited e' =
         visited e ++
         "draft" :: concat (replicate k ["execute_tools"; "revise"]).
Proof.
  unfold invoke. change (entry_point g) with (Some "draft"). cbv iota.
  destruct recursion_limit as [|limit]; [done|].
  rewrite run_S, node_draft.
  match goal with |- context [draft_node ?v ?e0] =>
    pose proof (draft_node_visited v e0) as Hv;
    destruct (draft_node v e0) as [[x|out] e1] eqn:Hnode
  end; [done|]. cbn [snd visited] in Hv.
  destruct limit as [|limit']; [done|].
  rewrite next_draft.
  destruct (decide ("execute_tools" = END)) as [?|_]; [done|].
  intros Hrun.
  destruct (run_returns (S limit') _ _ _ _ _ (or_introl eq_refl) Hrun)
    as (_ & _ & k & Hvis & Hk).
  exists k. split; [by apply Hk|]. rewrite Hvis, Hv. cbn.
  by rewrite <- !app_assoc.
Qed.

(** X4. When the first completion raises, the invocation ends with its
    exception: nothing but DRAFT has been entered and no search has been
    issued. *)
Theorem completion_failure_aborts (recursion_limit : nat) (question : string)
    (w : World) (x : Exn) :
  (0 < recursion_limit)%nat →
  (first_responder_invoke [EMsg (HumanMessage question)] w).1 = inl x →
  invoke g recursion_limit question (start w) =
    (inl x,
     mkEnv (first_responder_invoke [EMsg (HumanMessage question)] w).2
           [] ["draft"]).
Proof.
  intros Hlimit Hfail. destruct recursion_limit as [|limit]; [lia|].
  unfold invoke. change (entry_point g) with (Some "draft"). cbv iota.
  rewrite run_S, node_draft. unfold draft_node. cbn.
  unfold bind, call_first_responder. cbn.
  destruct (first_responder_invoke [EMsg (HumanMessage question)] w)
    as [r w']. cbn in Hfail. by subst r.
Qed.

(** X9. When the completion of a revision raises, the run ends there
    with its exception: REVISE is the last node entered and the searches
    made so far are the only ones. *)
Theorem revision_failure_aborts (limit : nat) (state : list BaseMessage)
    (e : Env World) (x : Exn) :
  (revisor_invoke state (world e)).1 = inl x →
  run g (S limit) "revise" state e =
    (inl x,
     mkEnv (revisor_invoke state (world e)).2 (search_calls e)
           (visited e ++ ["revise"])).
Proof.
  intros Hfail. rewrite run_S, node_revise.
  unfold revise_node, bind, call_revisor. cbn.
  destruct (revisor_invoke state (world e)) as [r w']. cbn in Hfail.
  by subst r.
Qed.

End RunShape.

(** ** Runs in which every pass adds one turn *)

Lemma alternates_segment (m : dict (dict SearchResult)) (a a' : AIMsg)
    (rest : list BaseMessage) :
  alternates (AIMessage a :: tool_messages m ++ AIMessage a' :: rest) = true →
  ∃ content id_,
    tool_messages m = [ToolMessage content id_] ∧
    alternates (AIMessage a' :: rest) = true.
Proof.
  destruct m as [|[i c] [|[i' c'] m]]; cbn; [done| |done].
  intros Halt. by exists c, i.
Qed.

Section OneTurnPerPass.
Context {World : Type} {services : Services World}.
Variable max_iterations : Z.

Local Abbreviation g := (create_graph max_iterations).

Lemma execute_tools_node_tools (state : list BaseMessage) (e e' : Env World)
    (out : list BaseMessage) :
  execute_tools_node state e = (inr out, e') →
  ∃ m, out = tool_messages m.
Proof.
  unfold execute_tools_node. destruct (list.last state); [|done].
  unfold bind.
  match goal with |- context [for_each execute ?qs e] =>
    destruct (for_each execute qs e) as [[x|outputs] e1]
  end; [done|].
  intros [= <- _]. by eexists.
Qed.

(** From EXECUTE_TOOLS on a state that ends with a proposal: when the
    run returns a history in which, from that proposal on, proposals and
    tool-result turns alternate, it has made [n] passes, each followed
    by a revision and each adding one turn, and [n] is the first number
    of passes that brings the count above the threshold. *)
Lemma run_one_turn_per_pass (limit : nat) :
  ∀ (before : list BaseMessage) (a : AIMsg) (turns final : list BaseMessage)
    (e e' : Env World),
    run g limit "execute_tools" (before ++ [AIMessage a]) e = (inr final, e') →
    final = before ++ turns →
    alternates turns = true →
    ∃ n, (1 ≤ n)%nat ∧
         visited e' =
           visited e ++ concat (replicate n ["execute_tools"; "revise"]) ∧
         count_tool_visits final =
           (count_tool_visits (before ++ [AIMessage a]) + Z.of_nat n)%Z ∧
         (count_tool_visits final > max_iterations)%Z ∧
         ((2 ≤ n)%nat → (count_tool_visits final - 1 <= max_iterations)%Z).
Proof.
  induction limit as [limit IH] using lt_wf_ind.
  intros before a turns final e e'.
  destruct limit as [|limit]; [done|].
  (* the pass *)
  rewrite run_S, node_execute_tools.
  match goal with |- context [execute_tools_node ?s ?e0] =>
    pose proof (execute_tools_node_visited s e0) as Hv1;
    destruct (execute_tools_node s e0) as [[x|out] e1] eqn:Hpass
  end; [done|]. cbn [snd visited] in Hv1.
  destruct (execute_tools_node_tools _ _ _ _ Hpass) as [m ->].
  destruct limit as [|limit]; [done|].
  rewrite next_execute_tools.
  destruct (decide ("revise" = END)) as [?|_]; [done|].
  (* the revision *)
  rewrite run_S, node_revise.
  match goal with |- context [revise_node ?s ?e0] =>
    pose proof (revise_node_visited s e0) as Hv2;
    destruct (revise_node s e0) as [[x|out] e2] eqn:Hrevise
  end; [done|]. cbn [snd visited] in Hv2.
  destruct (revise_node_output _ _ _ _ Hrevise) as [a' ->].
  destruct limit as [|limit]; [done|].
  rewrite next_revise.
  destruct (event_loop_cases max_iterations
              (((before ++ [AIMessage a]) ++ tool_messages m)
               ++ [AIMessage a'])) as [Hend | Hgo].
  - (* the threshold is passed *)
    pose proof Hend as Hgt. apply event_loop_threshold_END in Hgt.
    rewrite Hend. destruct (decide (END = END)); [|done].
    intros [= <- <-] Hfinal Halt.
    rewrite <- !app_assoc in Hfinal. apply app_inv_head in Hfinal.
    subst turns. cbn [app] in Halt.
    destruct (alternates_segment _ _ _ _ Halt) as (content & id_ & Hm & _).
    rewrite Hm in *.
    exists 1. split_and!.
    + done.
    + rewrite Hv2, Hv1. cbn. by rewrite <- !app_assoc.
    + by rewrite count_tool_visits_ai, count_tool_visits_tool.
    + done.
    + lia.
  - rewrite Hgo. destruct (decide ("execute_tools" = END)) as [?|_]; [done|].
    intros Hrun Hfinal Halt.
    pose proof Hgo as Hle. apply event_loop_threshold_go in Hle.
    destruct (run_returns max_iterations _ _ _ _ _ _ (or_introl eq_refl) Hrun)
      as ((mid & last_a & Hshape) & _).
    rewrite Hfinal in Hshape. rewrite <- !app_assoc in Hshape.
    apply app_inv_head in Hshape. subst turns. cbn [app] in Halt.
    destruct (alternates_segment _ _ _ _ Halt) as (content & id_ & Hm & Halt').
    rewrite Hm in *.
    destruct (IH (S limit) ltac:(lia)
                (before ++ [AIMessage a; ToolMessage content id_]) a'
                (AIMessage a' :: mid ++ [AIMessage last_a]) final e2 e')
      as (n & Hn & Hvis & Hcount & Hgt & Hprev).
    + rewrite <- Hrun. f_equal. by rewrite <- !app_assoc.
    + rewrite Hfinal. by rewrite <- !app_assoc.
    + done.
    + assert (count_tool_visits
                ((before ++ [AIMessage a; ToolMessage content id_])
                 ++ [AIMessage a'])
              = (count_tool_visits (before ++ [AIMessage a]) + 1)%Z) as Hstep.
      { rewrite count_tool_visits_ai.
        change [AIMessage a; ToolMessage content id_]
          with ([AIMessage a] ++ [ToolMessage content id_]).
        by rewrite app_assoc, count_tool_visits_tool. }
      exists (S n). split_and!.
      * lia.
      * rewrite Hvis, Hv2, Hv1. cbn. by rewrite <- !app_assoc.
      * rewrite Hcount, Hstep. lia.
      * done.
      * intros _. destruct (decide (n = 1)) as [-> | Hmore].
        -- rewrite Hcount, Hstep.
           replace (((before ++ [AIMessage a]) ++ [ToolMessage content id_])
                    ++ [AIMessage a'])
             with ((before ++ [AIMessage a; ToolMessage content id_])
                   ++ [AIMessage a']) in Hle
             by (by rewrite <- !app_assoc).
           rewrite Hstep in Hle. lia.
        -- apply Hprev. lia.
Qed.

(** C3. An invocation that returns a history in which every pass of
    EXECUTE_TOOLS has added one tool-result turn has gone through DRAFT
    and then through exactly [max (max_iterations, 0) + 1] cycles of
    EXECUTE_TOOLS and REVISE: [max_iterations + 1] revisions for a
    threshold that is not negative, one revision for a negative one.
    With the threshold 0 the nodes entered are DRAFT, EXECUTE_TOOLS,
    REVISE, and the count at the check is 1. *)
Theorem revise_cycles (recursion_limit : nat) (question : string)
    (e e' : Env World) (final : list BaseMessage) :
  invoke g recursion_limit question e = (inr final, e') →
  one_turn_per_pass question final →
  visited e' =
    visited e ++
    "draft" :: concat (replicate (Z.to_nat (Z.max max_iterations 0) + 1)
                                 ["execute_tools"; "revise"]) ∧
  times_entered "revise" e' =
    times_entered "revise" e + (Z.to_nat (Z.max max_iterations 0) + 1) ∧
  count_tool_visits final = (Z.max max_iterations 0 + 1)%Z.
Proof.
  unfold invoke. change (entry_point g) with (Some "draft"). cbv iota.
  destruct recursion_limit as [|limit]; [done|].
  rewrite run_S, node_draft.
  match goal with |- context [draft_node ?v ?e0] =>
    pose proof (draft_node_visited v e0) as Hv;
    destruct (draft_node v e0) as [[x|out] e1] eqn:Hnode
  end; [done|]. cbn [snd visited] in Hv.
  destruct (draft_node_output _ _ _ _ Hnode) as [a ->].
  destruct limit as [|limit]; [done|].
  rewrite next_draft.
  destruct (decide ("execute_tools" = END)) as [?|_]; [done|].
  intros Hrun (turns & Hfinal & Halt).
  destruct (run_one_turn_per_pass (S limit) [HumanMessage question] a turns
              final e1 e' Hrun Hfinal Halt)
    as (n & Hn & Hvis & Hcount & Hgt & Hprev).
  change (count_tool_visits ([HumanMessage question] ++ [AIMessage a]))
    with 0%Z in Hcount.
  assert (n = Z.to_nat (Z.max max_iterations 0) + 1) as Hcycles.
  { destruct (decide (n = 1)) as [-> | Hmore]; [lia|].
    specialize (Hprev ltac:(lia)). lia. }
  subst n. split_and!.
  - rewrite Hvis, Hv. cbn. by rewrite <- !app_assoc.
  - rewrite (times_entered_app _ _ _ _ Hvis), revise_in_cycles.
    rewrite (times_entered_snoc _ _ _ _ Hv).
    destruct (decide ("draft" = "revise")); [done|lia].
  - rewrite Hcount. lia.
Qed.

End OneTurnPerPass.

(** ** Proposals without queries *)

Section IdleRuns.
Context {World : Type} {services : Services World}.
Variable max_iterations : Z.

Local Abbreviation g := (create_graph max_iterations).

(** A pass on a message whose proposals carry no query (or that has no
    proposal) issues no search and returns no turn. *)
Lemma execute_tools_idle (state : list BaseMessage) (a : AIMsg)
    (e : Env World) :
  list.last state = Some (AIMessage a) →
  no_query a →
  execute_tools_node state e = (inr [], e).
Proof.
  intros Hlast Hidle. unfold execute_tools_node. rewrite Hlast.
  change (parser_invoke (AIMessage a)) with (tool_calls a).
  unfold no_query in Hidle. by rewrite Hidle.
Qed.

Lemma run_idle (limit : nat) :
  chains_ask_nothing →
  (0 <= max_iterations)%Z →
  ∀ (state : list BaseMessage) (a : AIMsg) (e : Env World),
    list.last state = Some (AIMessage a) →
    no_query a →
    count_tool_visits state = 0%Z →
    ((run g limit "execute_tools" state e).1 = inl GraphRecursionError ∧
     search_calls (run g limit "execute_tools" state e).2 = search_calls e) ∧
    ((run g limit "revise" state e).1 = inl GraphRecursionError ∧
     search_calls (run g limit "revise" state e).2 = search_calls e).
Proof.
  intros [_ Hrev] Hmax. induction limit as [|limit IH];
    intros state a e Hlast Hidle Hcount; [done|].
  split; rewrite run_S.
  - rewrite node_execute_tools, (execute_tools_idle state a _ Hlast Hidle).
    destruct limit as [|limit']; [done|].
    rewrite next_execute_tools, app_nil_r.
    destruct (decide ("revise" = END)) as [?|_]; [done|].
    match goal with |- context [run g _ "revise" state ?e0] =>
      destruct (IH state a e0 Hlast Hidle Hcount) as [_ [Hr Hs]]
    end. by rewrite Hr, Hs.
  - rewrite node_revise. unfold revise_node, bind, call_revisor.
    cbn [world search_calls visited].
    destruct (Hrev state (world e)) as (a' & Ha' & Hidle').
    destruct (revisor_invoke state (world e)) as [r w']. cbn in Ha'.
    subst r. unfold ret. cbv beta iota.
    destruct limit as [|limit']; [done|].
    rewrite next_revise.
    assert (count_tool_visits (state ++ [AIMessage a']) = 0%Z) as Hcount'.
    { by rewrite count_tool_visits_ai. }
    unfold event_loop. rewrite Hcount'.
    destruct (Z.gtb_spec 0 max_iterations); [lia|].
    destruct (decide ("execute_tools" = END)) as [?|_]; [done|].
    match goal with |- context [run g _ "execute_tools" ?s ?e0] =>
      destruct (IH s a' e0 (last_snoc _ _) Hidle' Hcount') as [[Hr Hs] _]
    end. by rewrite Hr, Hs.
Qed.

(** X3. When the completions keep answering with proposals that carry
    no query and the threshold is not negative, the count of tool-result
    turns stays at zero and no invocation returns: whatever the step
    limit, it ends with the error of the limit, without a search. *)
Theorem idle_run_never_returns (recursion_limit : nat) (question : string)
    (w : World) :
  chains_ask_nothing →
  (0 <= max_iterations)%Z →
  (invoke g recursion_limit question (start w)).1 = inl GraphRecursionError ∧
  search_calls (invoke g recursion_limit question (start w)).2 = [].
Proof.
  intros Hchains Hmax. unfold invoke.
  change (entry_point g) with (Some "draft"). cbv iota.
  destruct recursion_limit as [|limit]; [done|].
  rewrite run_S, node_draft. unfold draft_node.
  cbn [fmap list_fmap normalize_state list.last].
  unfold bind, call_first_responder. cbn [world search_calls visited start].
  destruct Hchains as [Hfirst Hrev].
  destruct (Hfirst [EMsg (HumanMessage question)] w) as (a & Ha & Hidle).
  destruct (first_responder_invoke [EMsg (HumanMessage question)] w)
    as [r w']. cbn in Ha. subst r. unfold ret. cbv beta iota.
  destruct limit as [|limit']; [done|].
  rewrite next_draft.
  destruct (decide ("execute_tools" = END)) as [?|_]; [done|].
  match goal with |- context [run g ?l "execute_tools" ?s ?e0] =>
    destruct (run_idle l (conj Hfirst Hrev) Hmax s a e0 eq_refl Hidle
                eq_refl) as [[Hr Hs] _]
  end. by rewrite Hr, Hs.
Qed.

End IdleRuns.

(** ** Order and edge cases of a pass *)

Lemma store_keys (id_ q : string) (o : SearchResult)
    (m : dict (dict SearchResult)) :
  dict_keys (outputs_map_store id_ q o m) =
    dict_keys m ++ filter (λ y, y ∉ dict_keys m) [id_].
Proof.
  unfold outputs_map_store. rewrite dict_keys_set.
  destruct (decide (id_ ∈ dict_keys m)) as [Hin|Hnin].
  - rewrite filter_cons_False by tauto. by rewrite filter_nil, app_nil_r.
  - by rewrite filter_cons_True by done.
Qed.

Lemma first_occurrences_from (seen : list string) (x : string)
    (l : list string) :
  filter (λ y, y ∉ seen) [x] ++
    filter (λ y, y ∉ seen ++ filter (λ y, y ∉ seen) [x]) (first_occurrences l)
  = filter (λ y, y ∉ seen) (first_occurrences (x :: l)).
Proof.
  cbn [first_occurrences]. destruct (decide (x ∈ seen)) as [Hin|Hnin].
  - rewrite !(filter_cons_False _ x) by tauto. rewrite filter_nil, app_nil_r.
    cbn [app]. rewrite list_filter_filter_l; [done|].
    intros y Hy ->. done.
  - rewrite !(filter_cons_True _ x) by done. rewrite filter_nil. cbn [app].
    f_equal. rewrite list_filter_filter. apply list_filter_iff.
    intros y. rewrite not_elem_of_app, list_elem_of_singleton. done.
Qed.

(** The identifiers of the map are in the order in which the
    invocations first name them. *)
Lemma group_outputs_keys_order (invs : list (string * string))
    (outputs : list SearchResult) (m : dict (dict SearchResult)) :
  length outputs = length invs →
  dict_keys (group_outputs invs outputs m) =
    dict_keys m ++ filter (λ y, y ∉ dict_keys m) (first_occurrences invs.*1).
Proof.
  revert outputs m. induction invs as [|[i q] invs IH]; intros outputs m.
  - intros _. destruct outputs; cbn; by rewrite ?filter_nil, ?app_nil_r.
  - destruct outputs as [|o outputs]; [done|]. intros [= Hlen].
    cbn [group_outputs]. rewrite (IH _ _ Hlen), store_keys, <- app_assoc.
    f_equal. apply first_occurrences_from.
Qed.

Lemma store_inner_keys (id_ i q : string) (o : SearchResult)
    (m : dict (dict SearchResult)) :
  dict_keys (default [] (dict_get id_ (outputs_map_store i q o m))) =
    dict_keys (default [] (dict_get id_ m)) ++
    filter (λ y, y ∉ dict_keys (default [] (dict_get id_ m)))
           (filter (λ p, p.1 = id_) [(i, q)]).*2.
Proof.
  destruct (decide (i = id_)) as [->|Hne].
  - rewrite store_inner_same, dict_keys_set, filter_cons_True by done.
    rewrite filter_nil. cbn [fmap list_fmap snd].
    destruct (decide (q ∈ dict_keys (default [] (dict_get id_ m)))).
    + rewrite filter_cons_False by tauto. by rewrite filter_nil, app_nil_r.
    + by rewrite filter_cons_True by done.
  - rewrite store_inner_other, filter_cons_False by done.
    rewrite ?filter_nil. cbn. by rewrite ?filter_nil, ?app_nil_r.
Qed.

(** Under an identifier the queries are in the order in which the
    invocations first ask them. *)
Lemma group_outputs_inner_order (invs : list (string * string))
    (outputs : list SearchResult) (m : dict (dict SearchResult))
    (id_ : string) :
  length outputs = length invs →
  dict_keys (default [] (dict_get id_ (group_outputs invs outputs m))) =
    dict_keys (default [] (dict_get id_ m)) ++
    filter (λ y, y ∉ dict_keys (default [] (dict_get id_ m)))
           (first_occurrences (filter (λ p, p.1 = id_) invs).*2).
Proof.
  revert outputs m. induction invs as [|[i q] invs IH]; intros outputs m.
  - intros _. destruct outputs; cbn; by rewrite ?filter_nil, ?app_nil_r.
  - destruct outputs as [|o outputs]; [done|]. intros [= Hlen].
    cbn [group_outputs]. rewrite (IH _ _ Hlen), store_inner_keys.
    rewrite <- app_assoc. f_equal.
    destruct (decide (i = id_)) as [->|Hne].
    + rewrite !(filter_cons_True (λ p, p.1 = id_)) by done.
      rewrite filter_nil. cbn [fmap list_fmap snd].
      apply first_occurrences_from.
    + rewrite !(filter_cons_False (λ p, p.1 = id_)) by done.
      rewrite ?filter_nil. cbn [fmap list_fmap]. rewrite ?filter_nil.
      cbn [app]. by rewrite ?app_nil_r.
Qed.

Lemma filter_always {A} (P : A → Prop) `{∀ x, Decision (P x)} (l : list A) :
  (∀ x, P x) → filter P l = l.
Proof.
  intros HP. induction l as [|x l IH]; [done|].
  by rewrite filter_cons_True, IH.
Qed.

Section PassOrder.
Context {World : Type} {services : Services World}.

(** X6. When the search answers, the turns that a pass returns are in
    the order in which the batch first names their identifiers, and the
    entries of a turn are in the order in which its queries are first
    asked. *)
Theorem turns_in_first_occurrence_order (state : list BaseMessage)
    (tool_invocation : BaseMessage) (e : Env World) :
  search_answers →
  list.last state = Some tool_invocation →
  ∃ msgs e',
    execute_tools_node state e = (inr msgs, e') ∧
    turn_id <$> msgs =
      first_occurrences
        (collect_invocations (parser_invoke tool_invocation)).*1 ∧
    ∀ content id_,
      ToolMessage content id_ ∈ msgs →
      dict_keys content =
        first_occurrences
          (filter (λ p, p.1 = id_)
                  (collect_invocations (parser_invoke tool_invocation))).*2.
Proof.
  intros Hs Hlast.
  destruct (execute_tools_returns state tool_invocation e Hs Hlast)
    as (outputs & e' & _ & Hnode & _ & _ & Hlen).
  set (invs := collect_invocations (parser_invoke tool_invocation)) in *.
  eexists _, e'. split; [exact Hnode|]. split.
  - rewrite turn_id_tool_messages, group_outputs_keys_order by done.
    cbn [dict_keys fmap list_fmap app].
    apply filter_always. intros y. apply not_elem_of_nil.
  - intros content id_ Hin.
    destruct (group_outputs_keys invs outputs [] Hlen) as [Hnd _];
      [apply NoDup_nil_2|].
    apply elem_of_tool_messages, (dict_elem_get _ _ _ Hnd) in Hin.
    pose proof (group_outputs_inner_order invs outputs [] id_ Hlen) as Ho.
    rewrite Hin in Ho. etrans; [exact Ho|].
    apply filter_always. intros y. apply not_elem_of_nil.
Qed.

(** X8. A pass on an empty history raises [IndexError], and a pass on
    a message whose proposals carry no query returns no turn; neither
    issues a search nor changes anything else. *)
Theorem execute_tools_nothing_to_do (state : list BaseMessage) (a : AIMsg)
    (e : Env World) :
  execute_tools_node [] e = (inl IndexError, e) ∧
  (list.last state = Some (AIMessage a) →
   (∀ call, call ∈ tool_calls a → search_queries (call_args call) = []) →
   execute_tools_node state e = (inr [], e)).
Proof.
  split; [done|]. intros Hlast Hnone. unfold execute_tools_node.
  rewrite Hlast. change (parser_invoke (AIMessage a)) with (tool_calls a).
  assert (collect_invocations (tool_calls a) = []) as ->; [|done].
  unfold collect_invocations.
  induction (tool_calls a) as [|call calls IH]; [done|].
  cbn. rewrite (Hnone call) by apply list_elem_of_here. cbn.
  apply IH. intros c Hc. apply Hnone. by apply list_elem_of_further.
Qed.

(** X7. When the list handed to DRAFT ends with a string, the step is
    the step on that string alone: what precedes it is dropped. When it
    ends with a message, the whole list goes to the completion as it
    is. *)
Theorem draft_node_last_element (l : list PyElem) (s : string)
    (m : BaseMessage) (e : Env World) :
  draft_node (VList (l ++ [EStr s])) e = draft_node (VStr s) e ∧
  normalize_state (VList (l ++ [EMsg m])) = inr (l ++ [EMsg m]).
Proof.
  unfold draft_node. cbn [normalize_state]. by rewrite !last_snoc.
Qed.

End PassOrder.

(** ** Environment and rendering *)

Lemma validate_environment_spec (s : Settings) :
  (OPENAI_API_KEY s ≠ EmptyString ∧ TAVILY_API_KEY s ≠ EmptyString →
   validate_environment s = inr tt).
Proof.
  intros [Ho Ht]. unfold validate_environment.
  destruct (decide (OPENAI_API_KEY s = EmptyString)); [done|].
  by destruct (decide (TAVILY_API_KEY s = EmptyString)).
Qed.

(** X11. [validate_environment] passes exactly when both keys are not
    empty; an empty completion key is the one reported, whatever the
    search key is; the search key is reported when it alone is empty. *)
Theorem validate_environment_keys (s : Settings) :
  (validate_environment s = inr tt ↔
     OPENAI_API_KEY s ≠ EmptyString ∧ TAVILY_API_KEY s ≠ EmptyString) ∧
  (validate_environment s =
     inl (ValueError "OPENAI_API_KEY not found in environment variables") ↔
     OPENAI_API_KEY s = EmptyString) ∧
  (validate_environment s =
     inl (ValueError "TAVILY_API_KEY not found in environment variables") ↔
     OPENAI_API_KEY s ≠ EmptyString ∧ TAVILY_API_KEY s = EmptyString).
Proof.
  unfold validate_environment.
  destruct (decide (OPENAI_API_KEY s = EmptyString)) as [Ho|Ho];
    [|destruct (decide (TAVILY_API_KEY s = EmptyString)) as [Ht|Ht]];
    split_and!; split; try done; try tauto; intros [? ?]; done.
Qed.

Section Rendering.
Variable literal_eval : string → option PyObj.
Variable obj_str : PyObj → string.
Variable list_str : list string → string.




(** X13. Whatever the reference, a string or an object, what
    [format_reference] returns opens with the index in brackets and a
    space. *)
Theorem format_reference_numbered (ref : Ref) (index : Z) (rendered : string) :
  format_reference literal_eval obj_str ref index = inr rendered →
  ∃ body,
    rendered = "[" +:+ NilZero.string_of_int (Z.to_int index) +:+ "] " +:+ body.
Proof.
  unfold format_reference.
  match goal with |- context [py_contains _ ?d] => generalize d end.
  intros ref_dict. destruct (py_contains _ _).
  - destruct ref_dict as [items|elems|elems]; [|done..]. cbn.
    intros [= <-]. by eexists.
  - destruct (py_get ref_dict _ _); [done|]. intros [= <-]. by eexists.
Qed.

Lemma format_references_returns (references lines : list string) (start : Z) :
  format_references literal_eval obj_str references start = inr lines →
  length lines = length references ∧
  ∀ (j : nat) (ref : string),
    references !! j = Some ref →
    ∃ line,
      lines !! j = Some line ∧
      format_reference literal_eval obj_str (RefStr ref)
        (start + Z.of_nat j) = inr line.
Proof.
  revert lines start. induction references as [|r references IH];
    intros lines start.
  - intros [= <-]. split; [done|]. intros j ref Hj. done.
  - cbn [format_references].
    destruct (format_reference literal_eval obj_str (RefStr r) start)
      as [x|line] eqn:Hline; [done|].
    destruct (format_references literal_eval obj_str references (start + 1))
      as [x|rest] eqn:Hrest; [done|].
    intros [= <-]. destruct (IH _ _ Hrest) as [Hlen Hnth].
    split; [cbn; by rewrite Hlen|].
    intros [|j] ref Hj.
    + injection Hj as <-. exists line. split; [done|].
      by rewrite Z.add_0_r.
    + destruct (Hnth j ref Hj) as (l & Hl & Hfmt). exists l.
      split; [done|]. rewrite <- Hfmt. f_equal. lia.
Qed.


(** X14. When [format_standard_output] returns, the answer is that of
    the first tool call of the message, there is one line per reference
    of that call, in order, and the line of the reference at position
    [j] (from zero) is its rendering with the number [j + 1]. *)
Theorem format_standard_output_returns (message : BaseMessage)
    (text : string) (lines : list string) :
  format_standard_output literal_eval obj_str message = inr (text, lines) →
  ∃ m tool_call others,
    message = AIMessage m ∧
    tool_calls m = tool_call :: others ∧
    text = answer (call_args tool_call) ∧
    length lines =
      length (default [] (references (call_args tool_call))) ∧
    ∀ (j : nat) (ref : string),
      default [] (references (call_args tool_call)) !! j = Some ref →
      ∃ line,
        lines !! j = Some line ∧
        format_reference literal_eval obj_str (RefStr ref)
          (1 + Z.of_nat j) = inr line.
Proof.
  destruct message as [c|m|c i]; [done| |done]. cbn.
  destruct (tool_calls m) as [|tool_call others] eqn:Hcalls; [done|].
  destruct (format_references literal_eval obj_str
              (default [] (references (call_args tool_call))) 1)
    as [x|formatted] eqn:Hrefs; [done|].
  intros [= <- <-]. destruct (format_references_returns _ _ _ Hrefs)
    as [Hlen Hnth].
  exists m, tool_call, others. split_and!; done.
Qed.



End Rendering.

(** ** Verbose rendering and display *)

Section DisplayProperties.
Variable literal_eval : string → option PyObj.
Variable obj_str : PyObj → string.
Variable list_str : list string → string.
Variable open_error : string → option Exn.



Lemma io_for_each_print (lines : list string) (t : Terminal) :
  io_for_each print lines t =
    (inr tt, mkTerminal (printed t ++ lines) (saved t)).
Proof.
  revert t. induction lines as [|line lines IH]; intros t.
  - cbn. unfold io_ret. rewrite app_nil_r. by destruct t.
  - cbn [io_for_each]. unfold io_bind, print at 1. rewrite IH. cbn.
    by rewrite <- app_assoc.
Qed.

(** X17. Without the verbose flag, when the last message cannot be
    rendered (there is no message, or [format_standard_output] raises on
    it), the exception ends the display before anything is printed or
    saved: the answer itself is not shown. *)
Theorem standard_display_all_or_nothing (result : list BaseMessage)
    (save_output : option string) (t : Terminal) (x : Exn) :
  match list.last result with
  | None => x = IndexError
  | Some message =>
      format_standard_output literal_eval obj_str message = inl x
  end →
  process_and_display_output literal_eval obj_str list_str open_error
    result false save_output t = (inl x, t).
Proof.
  unfold process_and_display_output, io_bind.
  destruct (list.last result) as [message|]; [|by intros ->].
  intros Hx. rewrite Hx. reflexivity.
Qed.

(** X18. Without the verbose flag, when the last message is rendered,
    the display prints the answer, then, if there are references, the
    heading and one line per reference; only then, and only for a file
    name that is not empty, it saves the arguments of the first tool
    call of the last message, unless the file cannot be opened. *)
Theorem standard_display (result : list BaseMessage) (message : BaseMessage)
    (text : string) (lines : list string) (save_output : option string)
    (t : Terminal) :
  list.last result = Some message →
  format_standard_output literal_eval obj_str message = inr (text, lines) →
  ∃ output,
    final_args result = inr output ∧
    process_and_display_output literal_eval obj_str list_str open_error
      result false save_output t =
    let shown :=
      printed t ++
      text :: match lines with
              | [] => []
              | _ :: _ => (newline +:+ "References:") :: lines
              end in
    match wants_save save_output with
    | None => (inr tt, mkTerminal shown (saved t))
    | Some filename =>
        match open_error filename with
        | Some x => (inl x, mkTerminal shown (saved t))
        | None =>
            (inr tt, mkTerminal shown (saved t ++ [(filename, output)]))
        end
    end.
Proof.
  intros Hlast Hfmt.
  destruct (format_standard_output_returns _ _ _ _ _ Hfmt)
    as (m & tool_call & others & -> & Hcalls & _).
  exists (call_args tool_call). unfold final_args. rewrite Hlast, Hcalls.
  split; [done|].
  unfold process_and_display_output, io_bind at 1. rewrite Hlast, Hfmt.
  cbn [io_lift]. unfold io_bind at 1, io_ret at 1. unfold io_bind at 1.
  unfold print at 1.
  assert (∀ t0, (match lines with
                 | [] => io_ret tt
                 | _ :: _ =>
                     io_bind (print (newline +:+ "References:"))
                       (λ _, io_for_each print lines)
                 end) t0 =
                (inr tt,
                 mkTerminal (printed t0 ++
                             match lines with
                             | [] => []
                             | _ :: _ => (newline +:+ "References:") :: lines
                             end) (saved t0))) as Hrefs.
  { intros t0. destruct lines as [|l lines'].
    - unfold io_ret. rewrite app_nil_r. by destruct t0.
    - unfold io_bind, print at 1. rewrite io_for_each_print. cbn.
      by rewrite <- app_assoc. }
  rewrite Hrefs. cbn [printed saved]. rewrite <- app_assoc. cbn [app].
  destruct (wants_save save_output) as [filename|]; [|done].
  unfold io_bind, final_args. rewrite Hlast, Hcalls.
  unfold io_lift, io_ret, save_output_to_file.
  destruct (open_error filename); done.
Qed.

(** X19. With the verbose flag, the display prints a heading and the
    rendering for every message in turn; a message that fails to render
    ends it after its heading, with the earlier messages printed and
    nothing saved. *)
Theorem verbose_display_partial (before after : list BaseMessage)
    (texts : list string) (message : BaseMessage) (x : Exn)
    (save_output : option string) (t : Terminal) :
  Forall2 (λ msg text,
             format_verbose_output literal_eval obj_str list_str msg
               = inr text) before texts →
  format_verbose_output literal_eval obj_str list_str message = inl x →
  process_and_display_output literal_eval obj_str list_str open_error
    (before ++ message :: after) true save_output t =
    (inl x,
     mkTerminal
       (printed t ++
        concat ((λ text, [newline +:+ "=== Message ==="; text]) <$> texts) ++
        [newline +:+ "=== Message ==="])
       (saved t)).
Proof.
  intros Hbefore Hfail. unfold process_and_display_output, io_bind at 1.
  match goal with |- context [io_for_each ?f _ t] => set (body := f) end.
  assert (io_for_each body (before ++ message :: after) t =
            (inl x,
             mkTerminal
               (printed t ++
                concat ((λ text, [newline +:+ "=== Message ==="; text])
                          <$> texts) ++
                [newline +:+ "=== Message ==="])
               (saved t))) as ->; [|done].
  revert t. induction Hbefore as [|msg text before texts Hmsg _ IH]; intros t.
  - cbn [app io_for_each]. unfold io_bind, body, io_bind, print at 1.
    rewrite Hfail. done.
  - cbn [app io_for_each]. unfold io_bind at 1, body at 1.
    unfold io_bind, print at 1. rewrite Hmsg. cbn [io_lift]. unfold io_ret.
    unfold print at 1. rewrite IH. cbn. by rewrite <- !app_assoc.
Qed.

End DisplayProperties.

(** ** [main] *)

Section MainProperties.
Context {World : Type} {services : Services World}.
Variable literal_eval : string → option PyObj.
Variable obj_str : PyObj → string.
Variable list_str : list string → string.
Variable open_error : string → option Exn.

(** With collaborators that do their part an invocation whose limit
    exceeds the number of its steps returns after
    [max (max_iterations, 0) + 1] revisions, from any environment. *)
Lemma invoke_cycles (max_iterations : Z) (recursion_limit : nat)
    (question : string) (e : Env World) :
  search_answers →
  chains_answer →
  (2 * Z.to_nat (Z.max max_iterations 0) + 4 ≤ recursion_limit)%nat →
  ∃ final e',
    invoke (create_graph max_iterations) recursion_limit question e
      = (inr final, e') ∧
    times_entered "revise" e' =
      times_entered "revise" e + (Z.to_nat (Z.max max_iterations 0) + 1).
Proof.
  intros Hsearch Hchains Hlimit.
  destruct recursion_limit as [|[|limit]]; [lia..|].
  unfold invoke. change (entry_point (create_graph max_iterations))
    with (Some "draft"). cbv iota.
  rewrite run_S, node_draft.
  match goal with |- context [draft_node _ ?e0] =>
    destruct (draft_node_answers Hchains question e0)
      as (a & e1 & -> & Hone & Hv1)
  end.
  cbn [visited] in Hv1. rewrite next_draft.
  destruct (decide ("execute_tools" = END)) as [?|_]; [done|].
  destruct (run_cycles max_iterations Hsearch Hchains
              (Z.to_nat (Z.max max_iterations 0) + 1) (S limit)
              ([HumanMessage question] ++ [AIMessage a]) a e1)
    as (final & e' & -> & Hv & _); [done | done | lia | | lia |].
  { change (count_tool_visits ([HumanMessage question] ++ [AIMessage a]))
      with 0%Z. lia. }
  exists final, e'. split; [done|].
  rewrite (times_entered_app _ _ _ _ Hv), revise_in_cycles.
  rewrite (times_entered_snoc _ _ _ _ Hv1).
  destruct (decide ("draft" = "revise")); [done|lia].
Qed.

(** X20. With an empty key [main] ends on the [ValueError] of
    [validate_environment] and has done nothing else: the settings keep
    their values, no completion or search is called, nothing is
    printed or saved. *)
Theorem main_missing_key (question : string) (max_iterations : option Z)
    (model : option string) (max_results : option Z) (word_limit : Z)
    (verbose : bool) (save_output : option string) (p : Process World) :
  OPENAI_API_KEY (proc_settings p) = EmptyString ∨
  TAVILY_API_KEY (proc_settings p) = EmptyString →
  ∃ msg,
    main literal_eval obj_str list_str open_error question max_iterations
         model max_results word_limit verbose save_output p
      = (inl (ValueError msg), p).
Proof.
  intros Hkey. unfold main, validate_environment.
  destruct (decide (OPENAI_API_KEY (proc_settings p) = EmptyString));
    [by eexists|].
  destruct (decide (TAVILY_API_KEY (proc_settings p) = EmptyString));
    [by eexists|].
  by destruct Hkey.
Qed.

(** X21. With both keys set and collaborators that do their part,
    [main] makes [max (n, 0) + 1] revisions where [n] is the default
    that was bound when the modules were imported, whatever the option
    [max_iterations] and whatever the settings say when [main] is
    called: the option changes the settings object, and neither the
    bound default nor the run. *)
Theorem main_runs_with_bound_default (question : string)
    (max_iterations : option Z) (model : option string)
    (max_results : option Z) (word_limit : Z) (verbose : bool)
    (save_output : option string) (p : Process World) :
  OPENAI_API_KEY (proc_settings p) ≠ EmptyString →
  TAVILY_API_KEY (proc_settings p) ≠ EmptyString →
  search_answers →
  chains_answer →
  (2 * Z.to_nat (Z.max (proc_bound_default p) 0) + 4
   ≤ default_recursion_limit)%nat →
  ∃ r p',
    main literal_eval obj_str list_str open_error question max_iterations
         model max_results word_limit verbose save_output p = (r, p') ∧
    proc_settings p' =
      update_settings max_iterations model max_results (proc_settings p) ∧
    MAX_ITERATIONS (proc_settings p') =
      default (MAX_ITERATIONS (proc_settings p)) max_iterations ∧
    proc_bound_default p' = proc_bound_default p ∧
    times_entered "revise" (proc_env p') =
      times_entered "revise" (proc_env p) +
      (Z.to_nat (Z.max (proc_bound_default p) 0) + 1).
Proof.
  intros Hopenai Htavily Hsearch Hchains Hlimit. unfold main.
  rewrite (validate_environment_spec _ (conj Hopenai Htavily)).
  destruct (invoke_cycles (proc_bound_default p)
              default_recursion_limit question (proc_env p)
              Hsearch Hchains Hlimit) as (final & e' & -> & Hrevise).
  destruct (process_and_display_output literal_eval obj_str list_str
              open_error final verbose save_output (proc_terminal p))
    as [r t].
  eexists _, _. split; [reflexivity|].
  cbn [proc_settings proc_env proc_bound_default].
  split_and!; [done| |done..].
  by destruct max_iterations, model, max_results.
Qed.

End MainProperties.

(** ** Settings and distinct queries *)

(** X10. Two updates of the settings in a row are one update in which
    each field takes the later value where one is given and the earlier
    one otherwise; an update without values changes nothing. *)
Theorem update_settings_twice (max_iterations1 max_iterations2 : option Z)
    (model1 model2 : option string) (max_results1 max_results2 : option Z)
    (s : Settings) :
  update_settings max_iterations2 model2 max_results2
    (update_settings max_iterations1 model1 max_results1 s)
  = update_settings (later_or max_iterations2 max_iterations1)
      (later_or model2 model1) (later_or max_results2 max_results1) s ∧
  update_settings None None None s = s.
Proof.
  split; [|by destruct s].
  destruct max_iterations1, max_iterations2, model1, model2,
    max_results1, max_results2; reflexivity.
Qed.

Section DistinctQueries.
Context {World : Type} {services : Services World}.

(** X22. When the search answers and no proposal identifier is paired
    twice with the same query, nothing is dropped: the output of every
    call is in the turn of its identifier, under its query. *)
Theorem distinct_queries_keep_every_output (state : list BaseMessage)
    (tool_invocation : BaseMessage) (e : Env World) :
  search_answers →
  list.last state = Some tool_invocation →
  NoDup (collect_invocations (parser_invoke tool_invocation)) →
  ∃ outputs msgs e',
    for_each execute
      (collect_invocations (parser_invoke tool_invocation)).*2 e
      = (inr outputs, e') ∧
    execute_tools_node state e = (inr msgs, e') ∧
    ∀ (j : nat) (id_ q : string),
      collect_invocations (parser_invoke tool_invocation) !! j
        = Some (id_, q) →
      ∃ content output,
        ToolMessage content id_ ∈ msgs ∧
        outputs !! j = Some output ∧
        dict_get q content = Some output.
Proof.
  intros Hs Hlast Hnodup.
  destruct (execute_tools_returns state tool_invocation e Hs Hlast)
    as (outputs & e' & Hrun & Hnode & _ & _ & Hlen).
  set (invs := collect_invocations (parser_invoke tool_invocation)) in *.
  eexists outputs, _, e'. split; [exact Hrun|]. split; [exact Hnode|].
  intros j id_ q Hj.
  destruct (group_outputs_keys invs outputs [] Hlen) as [Hnd Hkeys];
    [apply NoDup_nil_2|].
  assert (id_ ∈ dict_keys (group_outputs invs outputs [])) as Hin.
  { apply Hkeys. right. apply list_elem_of_fmap. exists (id_, q).
    split; [done|]. by eapply list_elem_of_lookup_2. }
  apply list_elem_of_fmap in Hin as ([i content] & Hi & Hin). cbn in Hi.
  subst i.
  destruct (lookup_lt_is_Some_2 outputs j) as [output Hout].
  { rewrite Hlen. by eapply lookup_lt_Some. }
  exists content, output. split; [by apply elem_of_tool_messages|].
  split; [done|].
  pose proof (take_drop_middle invs j (id_, q) Hj) as Hsplit.
  pose proof (group_outputs_last (take j invs) (drop (S j) invs) outputs []
                id_ q) as Hl.
  rewrite Hsplit in Hl.
  rewrite (dict_elem_get _ _ _ Hnd Hin) in Hl.
  assert (dict_get q content = outputs !! length (take j invs)) as ->.
  { apply Hl; [done|]. rewrite <- Hsplit in Hnodup.
    apply list.NoDup_app in Hnodup as (_ & _ & Hnd').
    by apply list.NoDup_cons in Hnd' as [Hnot _]. }
  rewrite length_take_le; [done|].
  apply Nat.lt_le_incl. by eapply lookup_lt_Some.
Qed.

End DistinctQueries.

(* ================================================================== *)
(** * The further properties on the sample collaborators *)

Lemma idle_chains_ask_nothing : chains_ask_nothing (services := idle_services).
Proof. split; intros messages w; by eexists. Qed.

(** X1 on a run with threshold 1. *)
Lemma invoke_returns_history_witness :
  ∃ final e',
    invoke (create_graph (services := sample_services) 1) 25 "why" (start 0)
      = (inr final, e') ∧
    (count_tool_visits final > 1)%Z ∧
    ∃ draft mid revision,
      final = [HumanMessage "why"; AIMessage draft] ++ mid
              ++ [AIMessage revision].
Proof.
  destruct (invoke (create_graph (services := sample_services) 1) 25 "why"
              (start 0)) as [[x|final] e'] eqn:Hrun.
  { vm_compute in Hrun. discriminate Hrun. }
  exists final, e'. split; [reflexivity|].
  destruct (invoke_returns_history (services := sample_services) 1 25 "why"
              (start 0) e' final Hrun) as [Hshape Hcount].
  split; [exact Hcount | exact Hshape].
Defined.

(** X2 on the same run. *)
Lemma invoke_trace_witness :
  ∃ final e' k,
    invoke (create_graph (services := sample_services) 1) 25 "why" (start 0)
      = (inr final, e') ∧
    (1 ≤ k)%nat ∧
    visited e' = "draft" :: concat (replicate k ["execute_tools"; "revise"]).
Proof.
  destruct (invoke (create_graph (services := sample_services) 1) 25 "why"
              (start 0)) as [[x|final] e'] eqn:Hrun.
  { vm_compute in Hrun. discriminate Hrun. }
  destruct (invoke_trace (services := sample_services) 1 25 "why"
              (start 0) e' final Hrun) as (k & Hk & Hvis).
  exists final, e', k. split; [reflexivity|]. split; [exact Hk | exact Hvis].
Defined.

(** X3 with proposals that carry no query, threshold 3 and limit 25. *)
Lemma idle_run_never_returns_witness :
  chains_ask_nothing (services := idle_services) ∧
  (0 <= 3)%Z ∧
  (invoke (create_graph (services := idle_services) 3) 25 "why" (start 0)).1
    = inl GraphRecursionError.
Proof.
  split; [exact idle_chains_ask_nothing|]. split; [lia|].
  apply (idle_run_never_returns (services := idle_services) 3 25 "why" 0
           idle_chains_ask_nothing).
  lia.
Defined.

(** X4 with a first completion that times out. *)
Lemma completion_failure_aborts_witness :
  (0 < 25)%nat ∧
  invoke (create_graph (services := silent_services) 3) 25 "why" (start 0)
    = (inl (CompletionError "timeout"), mkEnv 1 [] ["draft"]).
Proof.
  split; [lia|].
  apply (completion_failure_aborts (services := silent_services) 3 25 "why" 0
           (CompletionError "timeout")); [lia | reflexivity].
Defined.

(** X9 with a revision that times out. *)
Lemma revision_failure_aborts_witness :
  run (create_graph (services := silent_services) 3) 1 "revise"
      (history_with [proposal "a" ["x"]]) (start 0)
    = (inl (CompletionError "timeout"), mkEnv 1 [] ["revise"]).
Proof.
  apply (revision_failure_aborts (services := silent_services) 3 0
           (history_with [proposal "a" ["x"]]) (start 0)
           (CompletionError "timeout")).
  reflexivity.
Defined.

(** X5 on a history with three tool-result turns. *)
Lemma event_loop_stable_witness :
  event_loop 2 [ToolMessage [] "a"; ToolMessage [] "b"; ToolMessage [] "c"]
    = END ∧
  (1 <= 2)%Z ∧
  event_loop 1 ([ToolMessage [] "a"; ToolMessage [] "b"; ToolMessage [] "c"]
                ++ [HumanMessage "more"]) = END.
Proof.
  split; [reflexivity|]. split; [lia|].
  apply (event_loop_stable 2 1); [reflexivity | lia].
Defined.

(** X6 on a batch that names [b], then [a], then [b] again. *)
Lemma turns_in_first_occurrence_order_witness :
  search_answers (services := sample_services) ∧
  ∃ msgs e',
    execute_tools_node (services := sample_services)
      (history_with [proposal "b" ["y"; "x"]; proposal "a" ["z"];
                     proposal "b" ["x"; "w"]])
      (start 0) = (inr msgs, e') ∧
    turn_id <$> msgs = ["b"; "a"].
Proof.
  split; [exact sample_search_answers|].
  destruct (turns_in_first_occurrence_order (services := sample_services)
              (history_with [proposal "b" ["y"; "x"]; proposal "a" ["z"];
                             proposal "b" ["x"; "w"]])
              (AIMessage (mkAI EmptyString
                            [proposal "b" ["y"; "x"]; proposal "a" ["z"];
                             proposal "b" ["x"; "w"]]))
              (start 0) sample_search_answers eq_refl)
    as (msgs & e' & Hnode & Hids & _).
  exists msgs, e'. split; [exact Hnode|]. rewrite Hids. reflexivity.
Defined.

(** X8 on a proposal without queries. *)
Lemma execute_tools_nothing_to_do_witness :
  execute_tools_node (services := sample_services) [] (start 0)
    = (inl IndexError, start 0) ∧
  execute_tools_node (services := sample_services)
    (history_with [proposal "a" []]) (start 0) = (inr [], start 0).
Proof.
  destruct (execute_tools_nothing_to_do (services := sample_services)
              (history_with [proposal "a" []])
              (mkAI EmptyString [proposal "a" []]) (start 0))
    as [Hempty Hidle].
  split; [exact Hempty|]. apply Hidle; [reflexivity|].
  intros call Hin. cbn in Hin.
  apply list_elem_of_singleton in Hin. by subst call.
Defined.

(** X13 on a plain reference with the number 7. *)
Lemma format_reference_numbered_witness :
  format_reference literal_eval_flat sample_obj_str (RefStr "some note") 7
    = inr "[7] some note" ∧
  ∃ body, "[7] some note" = "[" +:+ "7" +:+ "] " +:+ body.
Proof.
  split; [reflexivity|].
  apply (format_reference_numbered literal_eval_flat sample_obj_str
           (RefStr "some note") 7 "[7] some note").
  reflexivity.
Defined.

(** X14 on a message with a plain and a structured reference. *)
Lemma format_standard_output_returns_witness :
  format_standard_output literal_eval_flat sample_obj_str sample_final
    = inr ("the answer", ["[1] first source"; "[2] A - T - u (d)"]) ∧
  ∃ m tool_call others,
    sample_final = AIMessage m ∧
    tool_calls m = tool_call :: others ∧
    "the answer" = answer (call_args tool_call).
Proof.
  split; [reflexivity|].
  destruct (format_standard_output_returns literal_eval_flat sample_obj_str
              sample_final "the answer"
              ["[1] first source"; "[2] A - T - u (d)"] eq_refl)
    as (m & tool_call & others & Hm & Hcalls & Hanswer & _).
  exists m, tool_call, others. split_and!; [exact Hm | exact Hcalls | exact Hanswer].
Defined.


(** X17 on a final message with a reference that evaluates to a set. *)
Lemma standard_display_all_or_nothing_witness :
  format_standard_output literal_eval_flat sample_obj_str sample_broken
    = inl AttributeError ∧
  process_and_display_output literal_eval_flat sample_obj_str
    sample_list_str sample_open_error
    [HumanMessage "why"; sample_broken] false (Some "out.json")
    (mkTerminal [] [])
  = (inl AttributeError, mkTerminal [] []).
Proof.
  split; [reflexivity|].
  apply (standard_display_all_or_nothing literal_eval_flat sample_obj_str
           sample_list_str sample_open_error
           [HumanMessage "why"; sample_broken] (Some "out.json")
           (mkTerminal [] []) AttributeError).
  reflexivity.
Defined.

(** X18 on a final message that renders, saved to a file. *)
Lemma standard_display_witness :
  ∃ output,
    final_args [HumanMessage "why"; sample_final] = inr output ∧
    process_and_display_output literal_eval_flat sample_obj_str
      sample_list_str sample_open_error
      [HumanMessage "why"; sample_final] false (Some "out.json")
      (mkTerminal [] [])
    = (inr tt,
       mkTerminal ["the answer"; newline +:+ "References:";
                   "[1] first source"; "[2] A - T - u (d)"]
                  [("out.json", output)]).
Proof.
  destruct (standard_display literal_eval_flat sample_obj_str
              sample_list_str sample_open_error
              [HumanMessage "why"; sample_final] sample_final
              "the answer" ["[1] first source"; "[2] A - T - u (d)"]
              (Some "out.json") (mkTerminal [] []) eq_refl eq_refl)
    as (output & Hargs & Hshow).
  exists output. split; [exact Hargs|]. rewrite Hshow. reflexivity.
Defined.

(** X19 on a question followed by a message that does not render. *)
Lemma verbose_display_partial_witness :
  process_and_display_output literal_eval_flat sample_obj_str
    sample_list_str sample_open_error
    ([HumanMessage "why"] ++ sample_broken :: []) true (Some "out.json")
    (mkTerminal [] [])
  = (inl AttributeError,
     mkTerminal [newline +:+ "=== Message ==="; EmptyString;
                 newline +:+ "=== Message ==="] []).
Proof.
  apply (verbose_display_partial literal_eval_flat sample_obj_str
           sample_list_str sample_open_error
           [HumanMessage "why"] [] [EmptyString] sample_broken AttributeError
           (Some "out.json") (mkTerminal [] [])).
  - constructor; [reflexivity | constructor].
  - reflexivity.
Defined.

(** X20 with an empty completion key. *)
Lemma main_missing_key_witness :
  ∃ msg,
    main (services := sample_services) literal_eval_flat sample_obj_str
      sample_list_str sample_open_error "why" (Some 1%Z) None None 250 false
      None (imported (default_settings EmptyString "tvly-key") 0)
    = (inl (ValueError msg),
       imported (default_settings EmptyString "tvly-key") 0).
Proof.
  apply (main_missing_key (services := sample_services)).
  left. reflexivity.
Defined.

(** X21 with the default threshold 3 bound at import: a first call with
    the option 0 makes four revisions and leaves settings that say 0; a
    second call, on those settings, makes four revisions again. *)
Lemma main_runs_with_bound_default_witness :
  search_answers (services := sample_services) ∧
  chains_answer (services := sample_services) ∧
  ∃ r1 p1 r2 p2,
    main (services := sample_services) literal_eval_flat sample_obj_str
      sample_list_str sample_open_error "why" (Some 0%Z) None None 250 false
      None (imported (default_settings "sk-key" "tvly-key") 0)
    = (r1, p1) ∧
    MAX_ITERATIONS (proc_settings p1) = 0%Z ∧
    times_entered "revise" (proc_env p1) = 4 ∧
    main (services := sample_services) literal_eval_flat sample_obj_str
      sample_list_str sample_open_error "why again" None None None 250 false
      None p1
    = (r2, p2) ∧
    times_entered "revise" (proc_env p2) = 8.
Proof.
  split; [exact sample_search_answers|].
  split; [exact sample_chains_answer|].
  destruct (main_runs_with_bound_default (services := sample_services)
              literal_eval_flat sample_obj_str sample_list_str
              sample_open_error "why" (Some 0%Z) None None 250 false None
              (imported (default_settings "sk-key" "tvly-key") 0))
    as (r1 & p1 & Hmain1 & Hsettings1 & Hthreshold1 & Hbound1 & Hrevise1);
    [discriminate | discriminate | exact sample_search_answers
     | exact sample_chains_answer
     | unfold default_recursion_limit; cbn; lia |].
  destruct (main_runs_with_bound_default (services := sample_services)
              literal_eval_flat sample_obj_str sample_list_str
              sample_open_error "why again" None None None 250 false None p1)
    as (r2 & p2 & Hmain2 & _ & _ & _ & Hrevise2);
    [rewrite Hsettings1; discriminate | rewrite Hsettings1; discriminate
     | exact sample_search_answers | exact sample_chains_answer
     | rewrite Hbound1; unfold default_recursion_limit; cbn; lia |].
  exists r1, p1, r2, p2.
  split_and!; [exact Hmain1 | exact Hthreshold1 | exact Hrevise1
               | exact Hmain2 |].
  rewrite Hrevise2, Hrevise1, Hbound1. reflexivity.
Defined.

(** X22 on two proposals that both ask [x]. *)
Lemma distinct_queries_keep_every_output_witness :
  search_answers (services := sample_services) ∧
  ∃ (outputs : list SearchResult) msgs e',
    execute_tools_node (services := sample_services)
      (history_with [proposal "a" ["x"; "y"]; proposal "b" ["x"]]) (start 0)
      = (inr msgs, e') ∧
    ∃ content output,
      ToolMessage content "b" ∈ msgs ∧
      outputs !! 2 = Some output ∧
      dict_get "x" content = Some output.
Proof.
  split; [exact sample_search_answers|].
  destruct (distinct_queries_keep_every_output (services := sample_services)
              (history_with [proposal "a" ["x"; "y"]; proposal "b" ["x"]])
              (AIMessage (mkAI EmptyString
                            [proposal "a" ["x"; "y"]; proposal "b" ["x"]]))
              (start 0) sample_search_answers eq_refl)
    as (outputs & msgs & e' & _ & Hnode & Hkept).
  { change (NoDup [("a", "x"); ("a", "y"); ("b", "x")]).
    apply (bool_decide_unpack (NoDup [("a", "x"); ("a", "y"); ("b", "x")])).
    vm_compute. exact I. }
  exists outputs, msgs, e'. split; [exact Hnode|].
  apply (Hkept 2 "b" "x"). reflexivity.
Defined.

(** C3 with the thresholds 0 and 2. *)
Lemma revise_cycles_witness :
  ∃ final0 e0 final2 e2,
    invoke (create_graph (services := sample_services) 0) 25 "why" (start 0)
      = (inr final0, e0) ∧
    one_turn_per_pass "why" final0 ∧
    visited e0 = ["draft"; "execute_tools"; "revise"] ∧
    times_entered "revise" e0 = 1 ∧
    count_tool_visits final0 = 1%Z ∧
    invoke (create_graph (services := sample_services) 2) 25 "why" (start 0)
      = (inr final2, e2) ∧
    one_turn_per_pass "why" final2 ∧
    times_entered "revise" e2 = 3.
Proof.
  destruct (invoke (create_graph (services := sample_services) 0) 25 "why"
              (start 0)) as [[x|final0] e0] eqn:Hrun0.
  { vm_compute in Hrun0. discriminate Hrun0. }
  destruct (invoke (create_graph (services := sample_services) 2) 25 "why"
              (start 0)) as [[x|final2] e2] eqn:Hrun2.
  { vm_compute in Hrun2. discriminate Hrun2. }
  assert (one_turn_per_pass "why" final0) as Hturns0.
  { pose proof Hrun0 as Hval. vm_compute in Hval. injection Hval as <- _.
    eexists. split; reflexivity. }
  assert (one_turn_per_pass "why" final2) as Hturns2.
  { pose proof Hrun2 as Hval. vm_compute in Hval. injection Hval as <- _.
    eexists. split; reflexivity. }
  destruct (revise_cycles (services := sample_services) 0 25 "why" (start 0)
              e0 final0 Hrun0 Hturns0) as (Hvis0 & Hrev0 & Hcount0).
  destruct (revise_cycles (services := sample_services) 2 25 "why" (start 0)
              e2 final2 Hrun2 Hturns2) as (_ & Hrev2 & _).
  exists final0, e0, final2, e2.
  split_and!; [reflexivity | exact Hturns0 | exact Hvis0 | exact Hrev0
               | exact Hcount0 | reflexivity | exact Hturns2 | exact Hrev2].
Defined.


